(** * dead-lang: the lexer and the statement tree, embedded and verified

    The development follows the two translation units of the repository:

    - [src/Lexer.cpp]: the cursor-driven tokenizer ([Lexer::lex],
      [Lexer::next_token] and the [lex_*] helpers);
    - [src/Statement.cpp]: the [evaluate] member of every statement class.

    C++ strings are [string], vectors are [list], and the [std::size_t]
    cursor is a [nat]: it only grows by the characters the lexer has seen in
    the source, so it does not wrap.  A computation that would leave
    the defined behaviour of C++ ([std::optional::value] on an empty
    optional, [std::string::substr] past the end, [front] of an empty
    vector) yields [None]; every function of the sources is [noexcept], so
    such a computation ends the program. *)

From Stdlib Require Import String Ascii List Arith Bool Lia ZArith.
Import ListNotations.

Local Open Scope list_scope.
Local Open Scope string_scope.

(** ** A small error monad

    [Some v] is a normal return, [None] an abort. *)

Definition bind {A B : Type} (m : option A) (k : A -> option B) : option B :=
  match m with
  | Some a => k a
  | None => None
  end.

Notation "x <- m ;; k" := (bind m (fun x => k))
  (at level 61, m at next level, right associativity).

Notation "' pat <- m ;; k" := (bind m (fun x => match x with pat => k end))
  (at level 61, pat pattern, m at next level, right associativity).

(** The line feed, written ["\n"] in the sources. *)
Definition LF : string := String (ascii_of_nat 10) EmptyString.

(** ** Position, Token, Supervisor *)

Module Position.

(** Modelled from the spec: [Position] is declared in a header that is not
    among the sources; the spec gives it a start and an end offset. *)
Record t : Set := create { m_start : nat; m_end : nat }.

(** Modelled from the spec: the position carried by the dumb token. *)
Definition create_dumb : t := create 0 0.

End Position.

Module Token.

(** Modelled from the spec: [Token::Type] is declared in [Token.hpp], which
    is not among the sources.  The spec lists the punctuation kinds,
    [IDENTIFIER], [END_OF_FILE] and one entry per keyword; the keyword
    entries are indexed here by the keyword they stand for. *)
Inductive Type_ : Set :=
| LEFT_PAREN | RIGHT_PAREN | LEFT_BRACE | RIGHT_BRACE
| SEMICOLON | COMMA | STAR
| MINUS | ARROW | MINUS_MINUS
| EQUAL | EQUAL_EQUAL
| PLUS | PLUS_EQUAL
| LESS | LESS_EQUAL
| IDENTIFIER
| END_OF_FILE
| KEYWORD (name : string).

Definition Type_eq_dec (a b : Type_) : {a = b} + {a <> b}.
Proof. decide equality; apply string_dec. Defined.

Record t : Set := create
  { m_type : Type_; m_lexeme : string; m_position : Position.t }.

(** Modelled from the spec: the dumb token is the end-of-file sentinel
    that [lex] filters out. *)
Definition create_dumb : t := create END_OF_FILE "" Position.create_dumb.

Definition matches (token : t) (type : Type_) : bool :=
  if Type_eq_dec (m_type token) type then true else false.

End Token.

(** The keyword table, [Token::is_keyword], lives in the missing header: it
    is an interface here, and every result below holds for every table. *)
Class KeywordTable : Type :=
  { is_keyword : string -> Token.Type_ }.

(** Modelled from the spec: the error sink.  The lexer only queries
    [has_errors]; a sink is fresh when nothing has been reported to it. *)
Module Supervisor.

Record t : Set := create { m_reports : list string }.

Definition fresh : t := create [].

Definition has_errors (supervisor : t) : bool :=
  match m_reports supervisor with
  | [] => false
  | _ :: _ => true
  end.

End Supervisor.

(** ** The lexer state

    [Lexer] derives from [Iterator<std::string>]; the record holds the
    members of both. *)

Record Lexer : Set := mkLexer
  { m_iterable : string;
    m_cursor : nat;
    m_supervisor : Supervisor.t }.

(** [Lexer::Lexer]. *)
Definition Lexer_new (source : string) (supervisor : Supervisor.t) : Lexer :=
  mkLexer source 0 supervisor.

(** Modelled from the spec: the operations of [Iterator], which is declared
    in a header that is not among the sources: [peek] (current char or
    none), [peek_ahead k], [advance k], [cursor] and [eof]. *)
Definition cursor (lexer : Lexer) : nat := m_cursor lexer.

Definition eof (lexer : Lexer) : bool :=
  (String.length (m_iterable lexer) <=? m_cursor lexer)%nat.

Definition peek (lexer : Lexer) : option ascii :=
  String.get (m_cursor lexer) (m_iterable lexer).

Definition peek_ahead (offset : nat) (lexer : Lexer) : option ascii :=
  String.get (m_cursor lexer + offset) (m_iterable lexer).

Definition advance (offset : nat) (lexer : Lexer) : Lexer :=
  mkLexer (m_iterable lexer) (m_cursor lexer + offset) (m_supervisor lexer).

(** [std::optional::value]: aborts on the empty optional. *)
Definition value {A : Type} (o : option A) : option A := o.

(** [ch == c] for the optional character returned by [peek_ahead]. *)
Definition is_char (o : option ascii) (c : ascii) : bool :=
  match o with
  | Some ch => Ascii.eqb ch c
  | None => false
  end.

(** [std::isalnum] in the "C" locale. *)
Definition isalnum (ch : ascii) : bool :=
  let n := nat_of_ascii ch in
  ((48 <=? n)%nat && (n <=? 57)%nat)
  || ((65 <=? n)%nat && (n <=? 90)%nat)
  || ((97 <=? n)%nat && (n <=? 122)%nat).

Definition is_whitespace (ch : ascii) : bool :=
  Ascii.eqb ch " " || Ascii.eqb ch (ascii_of_nat 9)
  || Ascii.eqb ch (ascii_of_nat 13) || Ascii.eqb ch (ascii_of_nat 10).

Definition is_identifier_char (ch : ascii) : bool :=
  isalnum ch || Ascii.eqb ch "_".

(** The characters with a case of their own in the switch of
    [Lexer::next_token]. *)
Definition is_single_punctuation (ch : ascii) : bool :=
  Ascii.eqb ch "(" || Ascii.eqb ch ")" || Ascii.eqb ch "{"
  || Ascii.eqb ch "}" || Ascii.eqb ch ";" || Ascii.eqb ch ",".

Definition is_operator_start (ch : ascii) : bool :=
  Ascii.eqb ch "-" || Ascii.eqb ch "=" || Ascii.eqb ch "*"
  || Ascii.eqb ch "+" || Ascii.eqb ch "<".

(** ** Lexer.cpp *)

(** [Lexer::skip_whitespaces].  The [while] loop runs at most once per
    remaining character; [fuel] is that bound, and running out of it is
    reported as an abort (which [skip_whitespaces_total] excludes). *)
Fixpoint skip_whitespaces_loop (fuel : nat) (lexer : Lexer) : option Lexer :=
  if eof lexer then Some lexer
  else
    match fuel with
    | 0 => None
    | S fuel' =>
        ch <- value (peek lexer) ;;
        if is_whitespace ch
        then skip_whitespaces_loop fuel' (advance 1 lexer)
        else Some lexer
    end.

Definition skip_whitespaces (lexer : Lexer) : option Lexer :=
  skip_whitespaces_loop
    (String.length (m_iterable lexer) - m_cursor lexer) lexer.

(** The accumulation loop of [Lexer::lex_keyword_or_identifier]. *)
Fixpoint accumulate_identifier (fuel : nat) (lexer : Lexer) (val : string)
  : option (string * Lexer) :=
  if eof lexer then Some (val, lexer)
  else
    match fuel with
    | 0 => None
    | S fuel' =>
        ch <- value (peek lexer) ;;
        if isalnum ch || Ascii.eqb ch "_"
        then accumulate_identifier fuel' (advance 1 lexer)
               (val ++ String ch EmptyString)
        else Some (val, lexer)
    end.

Section LexerCode.

Context {keywords : KeywordTable}.

(** [Lexer::lex_keyword_or_identifier]. *)
Definition lex_keyword_or_identifier (lexer : Lexer)
  : option (Token.t * Lexer) :=
  let start := cursor lexer in
  '(val, lexer) <-
    accumulate_identifier
      (String.length (m_iterable lexer) - m_cursor lexer) lexer "" ;;
  match is_keyword val with
  | Token.IDENTIFIER | Token.END_OF_FILE =>
      Some (Token.create Token.IDENTIFIER val
              (Position.create start (cursor lexer)), lexer)
  | keyword =>
      Some (Token.create keyword val
              (Position.create start (cursor lexer)), lexer)
  end.

(** [Lexer::lex_minus]. *)
Definition lex_minus (lexer : Lexer) : Token.t * Lexer :=
  let start := cursor lexer in
  if is_char (peek_ahead 1 lexer) ">" then
    let lexer := advance 2 lexer in
    (Token.create Token.ARROW "->"
       (Position.create start (cursor lexer)), lexer)
  else if is_char (peek_ahead 1 lexer) "-" then
    let lexer := advance 2 lexer in
    (Token.create Token.MINUS_MINUS "--"
       (Position.create start (cursor lexer)), lexer)
  else
    let lexer := advance 1 lexer in
    (Token.create Token.MINUS "-"
       (Position.create start (cursor lexer)), lexer).

(** [Lexer::lex_equal_sign]. *)
Definition lex_equal_sign (lexer : Lexer) : Token.t * Lexer :=
  let start := cursor lexer in
  if is_char (peek_ahead 1 lexer) "=" then
    let lexer := advance 2 lexer in
    (Token.create Token.EQUAL_EQUAL "=="
       (Position.create start (cursor lexer)), lexer)
  else
    let lexer := advance 1 lexer in
    (Token.create Token.EQUAL "="
       (Position.create start (cursor lexer)), lexer).

(** [Lexer::lex_star]. *)
Definition lex_star (lexer : Lexer) : Token.t * Lexer :=
  let start := cursor lexer in
  let lexer := advance 1 lexer in
  (Token.create Token.STAR "*"
     (Position.create start (cursor lexer)), lexer).

(** [Lexer::lex_plus]. *)
Definition lex_plus (lexer : Lexer) : Token.t * Lexer :=
  let start := cursor lexer in
  if is_char (peek_ahead 1 lexer) "=" then
    let lexer := advance 2 lexer in
    (Token.create Token.PLUS_EQUAL "+="
       (Position.create start (cursor lexer)), lexer)
  else
    let lexer := advance 1 lexer in
    (Token.create Token.PLUS "+"
       (Position.create start (cursor lexer)), lexer).

(** [Lexer::lex_less_than]. *)
Definition lex_less_than (lexer : Lexer) : Token.t * Lexer :=
  let start := cursor lexer in
  if is_char (peek_ahead 1 lexer) "=" then
    let lexer := advance 2 lexer in
    (Token.create Token.LESS_EQUAL "<="
       (Position.create start (cursor lexer)), lexer)
  else
    let lexer := advance 1 lexer in
    (Token.create Token.LESS "<"
       (Position.create start (cursor lexer)), lexer).

(** The cases of the switch that advance by one and build the position
    from the cursor after the advance. *)
Definition single_punctuation (type : Token.Type_) (lexeme : string)
    (lexer : Lexer) : Token.t * Lexer :=
  let lexer := advance 1 lexer in
  (Token.create type lexeme
     (Position.create (cursor lexer) (cursor lexer)), lexer).

(** The switch of [Lexer::next_token]. *)
Definition dispatch (ch : ascii) (lexer : Lexer)
  : option (Token.t * Lexer) :=
  if Ascii.eqb ch "(" then
    Some (single_punctuation Token.LEFT_PAREN "(" lexer)
  else if Ascii.eqb ch ")" then
    Some (single_punctuation Token.RIGHT_PAREN ")" lexer)
  else if Ascii.eqb ch "-" then Some (lex_minus lexer)
  else if Ascii.eqb ch "{" then
    Some (single_punctuation Token.LEFT_BRACE "{" lexer)
  else if Ascii.eqb ch "}" then
    Some (single_punctuation Token.RIGHT_BRACE "}" lexer)
  else if Ascii.eqb ch "=" then Some (lex_equal_sign lexer)
  else if Ascii.eqb ch ";" then
    Some (single_punctuation Token.SEMICOLON ";" lexer)
  else if Ascii.eqb ch "*" then Some (lex_star lexer)
  else if Ascii.eqb ch "," then
    Some (single_punctuation Token.COMMA "," lexer)
  else if Ascii.eqb ch "+" then Some (lex_plus lexer)
  else if Ascii.eqb ch "<" then Some (lex_less_than lexer)
  else lex_keyword_or_identifier lexer.

(** [Lexer::next_token]. *)
Definition next_token (lexer : Lexer) : option (Token.t * Lexer) :=
  if Supervisor.has_errors (m_supervisor lexer)
  then Some (Token.create_dumb, lexer)
  else
    lexer <- skip_whitespaces lexer ;;
    match peek lexer with
    | None => Some (Token.create_dumb, lexer)
    | Some _ =>
        ch <- value (peek lexer) ;;
        dispatch ch lexer
    end.

(** The condition and the body of the [while] loop of [Lexer::lex]. *)
Definition lex_continues (lexer : Lexer) : bool :=
  negb (eof lexer) && negb (Supervisor.has_errors (m_supervisor lexer)).

Definition push_token (token : Token.t) (tokens : list Token.t)
  : list Token.t :=
  if Token.matches token Token.END_OF_FILE
  then tokens
  else (tokens ++ [token])%list.

(** What a run of [Lexer::lex] bounded by [fuel] iterations comes to. *)
Inductive Outcome : Set :=
| Returned (tokens : list Token.t)
| Aborted
| OutOfFuel.

Fixpoint lex_loop (fuel : nat) (lexer : Lexer) (tokens : list Token.t)
  : Outcome :=
  if lex_continues lexer then
    match fuel with
    | 0 => OutOfFuel
    | S fuel' =>
        match next_token lexer with
        | None => Aborted
        | Some (token, lexer') =>
            lex_loop fuel' lexer' (push_token token tokens)
        end
    end
  else Returned tokens.

(** [Lexer::lex], bounded. *)
Definition lex (fuel : nat) (source : string) (supervisor : Supervisor.t)
  : Outcome :=
  lex_loop fuel (Lexer_new source supervisor) [].

(** The same loop as a relation: [lex_run lexer tokens result] when the
    loop entered with [lexer] and [tokens] leaves with [result]. *)
Inductive lex_run : Lexer -> list Token.t -> list Token.t -> Prop :=
| lex_run_exit lexer tokens :
    lex_continues lexer = false ->
    lex_run lexer tokens tokens
| lex_run_iter lexer tokens token lexer' result :
    lex_continues lexer = true ->
    next_token lexer = Some (token, lexer') ->
    lex_run lexer' (push_token token tokens) result ->
    lex_run lexer tokens result.

(** The loop states that a call of [lex] goes through. *)
Inductive lex_reaches (source : string) (supervisor : Supervisor.t)
  : Lexer -> list Token.t -> Prop :=
| lex_reaches_entry :
    lex_reaches source supervisor (Lexer_new source supervisor) []
| lex_reaches_iter lexer tokens token lexer' :
    lex_reaches source supervisor lexer tokens ->
    lex_continues lexer = true ->
    next_token lexer = Some (token, lexer') ->
    lex_reaches source supervisor lexer' (push_token token tokens).

(** [lex] returns [tokens] on [source]. *)
Definition lex_returns (source : string) (supervisor : Supervisor.t)
    (tokens : list Token.t) : Prop :=
  lex_run (Lexer_new source supervisor) [] tokens.

End LexerCode.

(** ** Collaborators of the statement tree *)

(** [Typechecker::builtin_type_to_c_type] is declared in a header that is not
    among the sources.  [Statement.cpp] calls it on a [BuiltinType] (in
    [VariableStatement] and [ArrayStatement]) and on a [std::string] (in
    [FunctionStatement]); both overloads are an interface here. *)
Class Typechecker : Type :=
  { BuiltinType : Set;
    builtin_type_to_c_type : BuiltinType -> string;
    builtin_type_to_c_type_of_name : string -> string }.

(** [dts::split_str] is declared in a header that is not among the
    sources. *)
Class Dts : Type :=
  { split_str : string -> ascii -> list string }.

(** [s.size()], a [std::size_t]. *)
Definition size (s : string) : Z := Z.of_nat (String.length s).

(** Subtraction of [std::size_t], which wraps around at [2 ^ 64]. *)
Definition size_t_sub (a b : Z) : Z := ((a - b) mod 2 ^ 64)%Z.

(** [s.substr(pos, count)]: throws [std::out_of_range] when [pos] is past
    the end, and otherwise takes the characters that are there, [count] at
    most. *)
Definition substr (s : string) (pos : nat) (count : Z) : option string :=
  if (String.length s <? pos)%nat then None
  else
    Some (substring pos
            (Z.to_nat (Z.min count (size s - Z.of_nat pos))) s).

(** The iterator range [[begin + first, begin + last)] of a vector; the
    range is not valid when [first] is past [last] or [last] past the end. *)
Definition range {A : Type} (first last : nat) (v : list A)
  : option (list A) :=
  if (last <? first)%nat || (List.length v <? last)%nat then None
  else Some (firstn (last - first) (skipn first v)).

(** [v.back()]. *)
Definition back {A : Type} (v : list A) : option A :=
  match rev v with
  | [] => None
  | x :: _ => Some x
  end.

(** ** Statement.cpp *)

Section StatementCode.

Context {typechecker : Typechecker} {dts : Dts}.

(** The classes derived from [Statement].  A member of class type
    [BlockStatement] is held by value in the sources; it is represented by
    its vector [m_block]. *)
#[warnings="-register-all"]
Inductive Statement : Type :=
| EmptyStatement
| BlockStatement (m_block : list Statement)
| ModuleStatement (m_name : string) (m_c_includes : list string)
    (m_structs m_functions : list Statement)
| FunctionStatement (m_name m_args m_return_type : string)
    (m_body : list Statement)
| IfStatement (m_condition : string)
    (m_then_block m_else_block : list Statement)
| ReturnStatement (m_expression : string)
| VariableStatement (m_is_mutable : bool) (m_type : BuiltinType)
    (m_type_extensions m_name m_expression : string)
| PlusEqualStatement (m_name m_expression : string)
| WhileStatement (m_condition : string) (m_body : list Statement)
| ForStatement (m_init_statement : Statement)
    (m_condition m_increment_statement : string) (m_body : list Statement)
| ExpressionStatement (m_expression : string)
| ArrayStatement (m_is_mutable : bool) (m_type : BuiltinType)
    (m_type_extensions m_name m_elements : string)
| IndexOperatorStatement (m_variable_name m_index m_expression : string)
| FunctionCallStatement (m_name m_args : string)
| StructStatement (m_name : string) (m_member_variables : list string).

(** [std::dynamic_pointer_cast<EmptyStatement>(statement)] is not null. *)
Definition is_EmptyStatement (statement : Statement) : bool :=
  match statement with
  | EmptyStatement => true
  | _ => false
  end.

(** The [std::accumulate] of [BlockStatement::evaluate], over the
    [evaluate] of the children. *)
Definition accumulate_block (evaluate : Statement -> option string)
    (m_block : list Statement) : option string :=
  fold_left
    (fun acc statement =>
       acc <- acc ;;
       code <- evaluate statement ;;
       if is_EmptyStatement statement
       then Some (acc ++ code)
       else Some (acc ++ code ++ LF))
    m_block (Some "").

(** The loop over [m_c_includes] of [ModuleStatement::evaluate]. *)
Definition accumulate_includes (m_c_includes : list string)
    (c_module_code : string) : option string :=
  fold_left
    (fun acc c_include =>
       acc <- acc ;;
       inner <- substr c_include 1 (size_t_sub (size c_include) 2) ;;
       Some (acc ++ "#include <" ++ inner ++ ">" ++ LF))
    m_c_includes (Some c_module_code).

(** One turn of the loop over [arguments] of [FunctionStatement::evaluate],
    up to the separator. *)
Definition evaluate_argument (argument : string) : option string :=
  let pieces := split_str argument " " in
  front <- hd_error pieces ;;
  let is_mutable := if String.eqb front "mut" then 1 else 0 in
  variable_type <- nth_error pieces (0 + is_mutable) ;;
  extension_pieces <-
    range (1 + is_mutable) (List.length pieces - 1) pieces ;;
  let type_extensions :=
    fold_left (fun acc piece => acc ++ piece) extension_pieces "" in
  variable_name <- back pieces ;;
  Some ((if negb (Nat.eqb is_mutable 0) then "" else "const ")
        ++ builtin_type_to_c_type_of_name variable_type
        ++ type_extensions ++ " " ++ variable_name).

(** The loop over [arguments]: [", "] follows every argument but the one
    stored last. *)
Fixpoint accumulate_arguments (arguments : list string) (c_args : string)
  : option string :=
  match arguments with
  | [] => Some c_args
  | argument :: rest =>
      code <- evaluate_argument argument ;;
      let c_args := c_args ++ code in
      match rest with
      | [] => Some c_args
      | _ :: _ => accumulate_arguments rest (c_args ++ ", ")
      end
  end.

(** The loop over [m_member_variables] of [StructStatement::evaluate]. *)
Definition accumulate_members (m_member_variables : list string)
    (c_struct_code : string) : string :=
  fold_left
    (fun acc member_variable => acc ++ "    " ++ member_variable ++ ";" ++ LF)
    m_member_variables c_struct_code.

(** [Statement::evaluate], one case per class. *)
Fixpoint evaluate (statement : Statement) : option string :=
  match statement with
  | EmptyStatement => Some ""
  | BlockStatement m_block => accumulate_block evaluate m_block
  | ModuleStatement m_name m_c_includes m_structs m_functions =>
      c_module_code <- accumulate_includes m_c_includes "" ;;
      let c_module_code := c_module_code ++ LF in
      structs <- accumulate_block evaluate m_structs ;;
      let c_module_code := c_module_code ++ structs in
      let c_module_code := c_module_code ++ LF in
      functions <- accumulate_block evaluate m_functions ;;
      Some (c_module_code ++ functions)
  | FunctionStatement m_name m_args m_return_type m_body =>
      let c_return_type := builtin_type_to_c_type_of_name m_return_type in
      let arguments := split_str m_args "," in
      c_args <- accumulate_arguments arguments "" ;;
      let c_function_code :=
        c_return_type ++ " " ++ m_name ++ "(" ++ c_args ++ ") {" ++ LF in
      body <- accumulate_block evaluate m_body ;;
      Some ((c_function_code ++ body) ++ "}" ++ LF)
  | IfStatement m_condition m_then_block m_else_block =>
      let c_if_code := "if (" ++ m_condition ++ ") {" ++ LF in
      then_code <- accumulate_block evaluate m_then_block ;;
      let c_if_code := c_if_code ++ then_code in
      c_if_code <-
        match m_else_block with
        | [] => Some c_if_code
        | _ :: _ =>
            else_code <- accumulate_block evaluate m_else_block ;;
            Some ((c_if_code ++ "} else {" ++ LF) ++ else_code)
        end ;;
      Some (c_if_code ++ "}" ++ LF)
  | ReturnStatement m_expression => Some ("return " ++ m_expression ++ ";")
  | VariableStatement m_is_mutable m_type m_type_extensions m_name
      m_expression =>
      let mutability := if m_is_mutable then "" else "const " in
      Some (mutability ++ builtin_type_to_c_type m_type ++ m_type_extensions
            ++ " " ++ m_name ++ " = " ++ m_expression ++ ";")
  | PlusEqualStatement m_name m_expression =>
      Some (m_name ++ " += " ++ m_expression ++ ";")
  | WhileStatement m_condition m_body =>
      let c_while_code := "while (" ++ m_condition ++ ") {" ++ LF in
      body <- accumulate_block evaluate m_body ;;
      Some ((c_while_code ++ body) ++ "}" ++ LF)
  | ForStatement m_init_statement m_condition m_increment_statement m_body =>
      init <- evaluate m_init_statement ;;
      let c_for_code :=
        "for (" ++ init ++ " " ++ m_condition ++ m_increment_statement
        ++ ") {" ++ LF in
      body <- accumulate_block evaluate m_body ;;
      Some ((c_for_code ++ body) ++ "}" ++ LF)
  | ExpressionStatement m_expression => Some (m_expression ++ ";")
  | ArrayStatement m_is_mutable m_type m_type_extensions m_name m_elements =>
      let mutability := if m_is_mutable then "" else "const " in
      Some (mutability ++ " " ++ builtin_type_to_c_type m_type ++ " "
            ++ m_name ++ m_type_extensions ++ " = { " ++ m_elements ++ " };")
  | IndexOperatorStatement m_variable_name m_index m_expression =>
      Some (m_variable_name ++ "[" ++ m_index ++ "] = " ++ m_expression
            ++ ";")
  | FunctionCallStatement m_name m_args =>
      Some (m_name ++ "(" ++ m_args ++ ");")
  | StructStatement m_name m_member_variables =>
      let c_struct_code := "typedef struct " ++ m_name ++ " {" ++ LF in
      let c_struct_code :=
        accumulate_members m_member_variables c_struct_code in
      Some (c_struct_code ++ "} " ++ m_name ++ ";" ++ LF)
  end.

(** [BlockStatement::evaluate] on a block held by value. *)
Definition BlockStatement_evaluate (m_block : list Statement)
  : option string :=
  evaluate (BlockStatement m_block).

End StatementCode.

(** ** Vocabulary of the specification *)

Section LexerVocabulary.

Context {keywords : KeywordTable}.

(** A lexeme is in the keyword table when the lookup resolves to a kind
    that is neither [IDENTIFIER] nor [END_OF_FILE]. *)
Definition in_keyword_table (lexeme : string) : bool :=
  match is_keyword lexeme with
  | Token.IDENTIFIER | Token.END_OF_FILE => false
  | _ => true
  end.

End LexerVocabulary.

(** [lexer'] reads the same source with the same sink, further on. *)
Definition extends (lexer lexer' : Lexer) : Prop :=
  m_iterable lexer' = m_iterable lexer
  /\ m_supervisor lexer' = m_supervisor lexer
  /\ m_cursor lexer <= m_cursor lexer'.

(** The characters that some branch of the tokenizer consumes: whitespace,
    the punctuation of the switch, and [[A-Za-z0-9_]]. *)
Definition is_recognised (ch : ascii) : bool :=
  is_whitespace ch || is_single_punctuation ch || is_operator_start ch
  || is_identifier_char ch.

(** The characters the tokenizer can consume at all: the recognised ones
    and ['>'], which only the arrow takes. *)
Definition is_lexable (ch : ascii) : bool :=
  is_recognised ch || Ascii.eqb ch ">".

Fixpoint all_chars (p : ascii -> bool) (s : string) : bool :=
  match s with
  | EmptyString => true
  | String ch rest => p ch && all_chars p rest
  end.

(** Adjacent tokens do not overlap: each one ends before the next starts. *)
Definition positions_ordered (tokens : list Token.t) : Prop :=
  forall i t1 t2,
    nth_error tokens i = Some t1 ->
    nth_error tokens (S i) = Some t2 ->
    Position.m_end (Token.m_position t1)
    <= Position.m_start (Token.m_position t2).

(** The token stored last ends at or before [bound]. *)
Definition ends_before (bound : nat) (tokens : list Token.t) : Prop :=
  forall t, back tokens = Some t ->
    Position.m_end (Token.m_position t) <= bound.

(** The kinds of the single-character cases of the switch. *)
Definition is_single_punctuation_kind (type : Token.Type_) : bool :=
  match type with
  | Token.LEFT_PAREN | Token.RIGHT_PAREN | Token.LEFT_BRACE
  | Token.RIGHT_BRACE | Token.SEMICOLON | Token.COMMA => true
  | _ => false
  end.

(** Modelled from the spec: a keyword table with the entries the spec
    names, [mut] and the builtin type [i32]; a miss resolves to
    [IDENTIFIER]. *)
Definition spec_keywords : KeywordTable :=
  {| is_keyword := fun lexeme =>
       if String.eqb lexeme "mut" then Token.KEYWORD "mut"
       else if String.eqb lexeme "i32" then Token.KEYWORD "i32"
       else Token.IDENTIFIER |}.

(** [c] occurs in [s]. *)
Fixpoint occurs (c : ascii) (s : string) : bool :=
  match s with
  | EmptyString => false
  | String ch rest => Ascii.eqb ch c || occurs c rest
  end.

(** A piece that a split on [delimiter] gives back as it is. *)
Definition is_piece (delimiter : ascii) (piece : string) : Prop :=
  piece <> "" /\ occurs delimiter piece = false.

(** What the renderer needs of [dts::split_str]: splitting the pieces
    joined by the delimiter gives the pieces back. *)
Definition splits_joined (split : string -> ascii -> list string) : Prop :=
  forall delimiter pieces,
    Forall (is_piece delimiter) pieces ->
    split (String.concat (String delimiter "") pieces) delimiter = pieces.

(** Modelled from the spec: [dts::split_str], which is not among the
    sources, read as a split at every occurrence of the delimiter that
    yields no item for an empty remainder. *)
Fixpoint split_str_from (current str : string) (delimiter : ascii)
  : list string :=
  match str with
  | EmptyString =>
      match current with
      | EmptyString => []
      | _ => [current]
      end
  | String ch rest =>
      if Ascii.eqb ch delimiter
      then current :: split_str_from "" rest delimiter
      else split_str_from (current ++ String ch "") rest delimiter
  end.

Definition spec_dts : Dts :=
  {| split_str := fun str delimiter => split_str_from "" str delimiter |}.

(** Modelled from the spec: a [Typechecker] with the one builtin type the
    spec names, [i32], spelled [int32_t] in C. *)
Inductive SpecBuiltinType : Set := I32.

Definition spec_typechecker : Typechecker :=
  {| BuiltinType := SpecBuiltinType;
     builtin_type_to_c_type := fun _ => "int32_t";
     builtin_type_to_c_type_of_name := fun name =>
       if String.eqb name "i32" then "int32_t" else name |}.

(** [d] with its first and its last character stripped. *)
Definition strip_first_last (d : string) : string :=
  string_of_list_ascii (removelast (tl (list_ascii_of_string d))).

(** The line a module renders for the include directive [d]. *)
Definition include_line (d : string) : string :=
  "#include <" ++ strip_first_last d ++ ">" ++ LF.

(** The concatenation of a list of strings. *)
Definition concat_all (ls : list string) : string :=
  fold_right String.append "" ls.

(** An item of an argument list, [[mut] TYPE [EXT...] NAME]. *)
Record Argument : Set := mkArgument
  { arg_mut : bool;
    arg_type : string;
    arg_extensions : list string;
    arg_name : string }.

Definition argument_pieces (a : Argument) : list string :=
  ((if arg_mut a then ["mut"] else [])
   ++ arg_type a :: arg_extensions a ++ [arg_name a])%list.

(** Every piece is free of spaces and commas, and the type of an item
    without the marker is not the marker. *)
Definition well_formed_argument (a : Argument) : Prop :=
  Forall (fun piece => is_piece " " piece /\ occurs "," piece = false)
    (arg_type a :: arg_extensions a ++ [arg_name a])%list
  /\ (arg_mut a = false -> arg_type a <> "mut").

(** The raw argument string of a list of items. *)
Definition raw_arguments (items : list Argument) : string :=
  String.concat ","
    (map (fun a => String.concat " " (argument_pieces a)) items).

(** The render of an array as the specification words it, with a single
    space between the parts and none in front. *)
Definition array_code_as_specified (is_mutable : bool)
    (c_type name extensions elements : string) : string :=
  (if is_mutable then "" else "const ")
  ++ c_type ++ " " ++ name ++ " " ++ extensions
  ++ " = { " ++ elements ++ " };".

(** The builtin type [i32] of [spec_typechecker]. *)
Definition spec_i32 : @BuiltinType spec_typechecker := I32.

Section StatementVocabulary.

Context {typechecker : Typechecker} {dts : Dts}.

(** What the specification has a function render for one item. *)
Definition argument_code (a : Argument) : string :=
  (if arg_mut a then "" else "const ")
  ++ builtin_type_to_c_type_of_name (arg_type a)
  ++ concat_all (arg_extensions a) ++ " " ++ arg_name a.

(** What a block adds after the code of a child. *)
Definition child_terminator (statement : Statement) : string :=
  if is_EmptyStatement statement then "" else LF.

(** The renders of the children of a block, each with its terminator. *)
Fixpoint children_code (m_block : list Statement) : option (list string) :=
  match m_block with
  | [] => Some []
  | statement :: rest =>
      code <- evaluate statement ;;
      codes <- children_code rest ;;
      Some ((code ++ child_terminator statement) :: codes)
  end.

End StatementVocabulary.

(** ** Vocabulary of the further properties *)

(** The text of [source] from the offset [first] up to the offset [last]. *)
Definition text_between (first last : nat) (source : string) : string :=
  substring first (last - first) source.

(** The lexeme of [token] is the text of [source] that ends at the end
    offset of the token. *)
Definition carries_source_text (source : string) (token : Token.t) : Prop :=
  String.length (Token.m_lexeme token)
  <= Position.m_end (Token.m_position token)
  /\ Token.m_lexeme token
     = text_between
         (Position.m_end (Token.m_position token)
          - String.length (Token.m_lexeme token))
         (Position.m_end (Token.m_position token)) source.

(** The position of [token] is a range of [source]. *)
Definition lies_within (source : string) (token : Token.t) : Prop :=
  Position.m_start (Token.m_position token)
  <= Position.m_end (Token.m_position token)
  /\ Position.m_end (Token.m_position token) <= String.length source.

(** The line a struct renders for one member. *)
Definition member_line (member_variable : string) : string :=
  "    " ++ member_variable ++ ";" ++ LF.

Section ContractVocabulary.

Context {typechecker : Typechecker} {dts : Dts}.

(** The pieces of [argument] hold a type and a name, after the marker when
    there is one. *)
Definition argument_in_contract (argument : string) : bool :=
  match split_str argument " " with
  | [] => false
  | front :: rest =>
      (2 + (if String.eqb front "mut" then 1 else 0)
       <=? List.length (front :: rest))%nat
  end.

(** No include directive of the tree is empty and every argument of its
    functions is in contract. *)
Fixpoint in_contract (statement : Statement) : bool :=
  match statement with
  | BlockStatement m_block => forallb in_contract m_block
  | ModuleStatement _ m_c_includes m_structs m_functions =>
      forallb (fun d => negb (String.eqb d "")) m_c_includes
      && forallb in_contract m_structs
      && forallb in_contract m_functions
  | FunctionStatement _ m_args _ m_body =>
      forallb argument_in_contract (split_str m_args ",")
      && forallb in_contract m_body
  | IfStatement _ m_then_block m_else_block =>
      forallb in_contract m_then_block && forallb in_contract m_else_block
  | WhileStatement _ m_body => forallb in_contract m_body
  | ForStatement m_init_statement _ _ m_body =>
      in_contract m_init_statement && forallb in_contract m_body
  | _ => true
  end.

End ContractVocabulary.

(** * Properties of the iterator and of the two inner loops *)

(** Splits a conjunction into its components, under no binder. *)
Ltac splits :=
  lazymatch goal with
  | |- _ /\ _ => split; [|splits]
  | |- _ => idtac
  end.

(** Decides the tests of the switch one after the other. *)
Ltac switch_on ch :=
  repeat match goal with
    | |- context [Ascii.eqb ch ?c] =>
        let E := fresh "E" in
        destruct (Ascii.eqb ch c) eqn:E
    end;
  try match goal with
    | E : Ascii.eqb ch _ = true |- _ => apply Ascii.eqb_eq in E; subst ch
    end.

(** Rewrites the goal with the tests that failed. *)
Ltac failed_tests :=
  repeat match goal with
    | E : Ascii.eqb ?a ?b = false |- context [Ascii.eqb ?a ?b] => rewrite E
    end.

Lemma get_length_iff (s : string) (n : nat) :
  String.get n s = None <-> String.length s <= n.
Proof.
  revert n; induction s as [|c s IH]; intros n; simpl.
  - split; [lia | reflexivity].
  - destruct n as [|n]; simpl.
    + split; [discriminate | lia].
    + rewrite IH; lia.
Qed.

Lemma eof_true_iff (lexer : Lexer) :
  eof lexer = true <-> String.length (m_iterable lexer) <= m_cursor lexer.
Proof. unfold eof; apply Nat.leb_le. Qed.

Lemma eof_false_iff (lexer : Lexer) :
  eof lexer = false <-> m_cursor lexer < String.length (m_iterable lexer).
Proof. unfold eof; rewrite Nat.leb_gt; reflexivity. Qed.

Lemma eof_peek (lexer : Lexer) : eof lexer = true <-> peek lexer = None.
Proof. rewrite eof_true_iff; unfold peek; symmetry; apply get_length_iff. Qed.

Lemma not_eof_peek (lexer : Lexer) :
  eof lexer = false -> exists ch, peek lexer = Some ch.
Proof.
  intros H; destruct (peek lexer) as [ch|] eqn:E; [eauto|].
  apply eof_peek in E; congruence.
Qed.

Lemma extends_refl (lexer : Lexer) : extends lexer lexer.
Proof. repeat split; lia. Qed.

Lemma extends_trans (a b c : Lexer) : extends a b -> extends b c -> extends a c.
Proof.
  intros (H1 & H2 & H3) (H4 & H5 & H6); repeat split; try congruence; lia.
Qed.

Lemma extends_advance (k : nat) (lexer : Lexer) : extends lexer (advance k lexer).
Proof. repeat split; simpl; lia. Qed.

Create HintDb lexer.

#[local] Hint Resolve extends_refl extends_advance : lexer.

(** The whitespace loop never aborts: it stops at the end of the source or
    in front of the first character that is not whitespace. *)
Lemma skip_whitespaces_loop_spec (fuel : nat) :
  forall lexer,
    String.length (m_iterable lexer) - m_cursor lexer <= fuel ->
    exists lexer',
      skip_whitespaces_loop fuel lexer = Some lexer'
      /\ extends lexer lexer'
      /\ match peek lexer' with
         | Some ch => is_whitespace ch = false
         | None => True
         end
      /\ (forall ch, peek lexer = Some ch -> is_whitespace ch = false ->
          lexer' = lexer).
Proof.
  induction fuel as [|fuel IH]; intros lexer Hfuel; simpl.
  - assert (E : eof lexer = true) by (apply eof_true_iff; lia).
    rewrite E; exists lexer; splits; auto with lexer.
    apply eof_peek in E; rewrite E; exact I.
  - destruct (eof lexer) eqn:E.
    + exists lexer; splits; auto with lexer.
      apply eof_peek in E; rewrite E; exact I.
    + destruct (not_eof_peek _ E) as [ch Hch].
      unfold value; rewrite Hch; simpl.
      destruct (is_whitespace ch) eqn:Hws.
      * destruct (IH (advance 1 lexer)) as (lexer' & Hrun & Hext & Hstop & _).
        { simpl; lia. }
        exists lexer'; splits; auto.
        -- apply extends_trans with (advance 1 lexer); auto with lexer.
        -- intros ch' Hch' Hws'; congruence.
      * exists lexer; splits; auto with lexer.
        rewrite Hch; exact Hws.
Qed.

Lemma skip_whitespaces_spec (lexer : Lexer) :
  exists lexer',
    skip_whitespaces lexer = Some lexer'
    /\ extends lexer lexer'
    /\ match peek lexer' with
       | Some ch => is_whitespace ch = false
       | None => True
       end
    /\ (forall ch, peek lexer = Some ch -> is_whitespace ch = false ->
        lexer' = lexer).
Proof. apply skip_whitespaces_loop_spec; lia. Qed.

Lemma append_empty_r (s : string) : s ++ "" = s.
Proof. induction s as [|c s IH]; simpl; [reflexivity | now rewrite IH]. Qed.

Lemma append_assoc (a b c : string) : (a ++ b) ++ c = a ++ b ++ c.
Proof. induction a as [|x a IH]; simpl; [reflexivity | now rewrite IH]. Qed.

Lemma length_append (a b : string) :
  String.length (a ++ b) = String.length a + String.length b.
Proof. induction a as [|x a IH]; simpl; [reflexivity | now rewrite IH]. Qed.

Lemma substring_none (n : nat) (s : string) : substring n 0 s = "".
Proof.
  revert n; induction s as [|c s IH]; intros [|n]; simpl; auto.
Qed.

Lemma substring_next (n m : nat) (s : string) (ch : ascii) :
  String.get n s = Some ch ->
  substring n (S m) s = String ch (substring (S n) m s).
Proof.
  revert n; induction s as [|c s IH]; intros n H.
  - destruct n; discriminate.
  - destruct n as [|n]; simpl in H.
    + injection H as ->. simpl. destruct s; destruct m; reflexivity.
    + simpl. rewrite (IH n H). reflexivity.
Qed.

(** The identifier loop never aborts.  It appends to [val] the characters
    it walks over, all of them in [[A-Za-z0-9_]], and stops at the end of
    the source or in front of a character outside that class. *)
Lemma accumulate_identifier_spec (fuel : nat) :
  forall lexer val,
    String.length (m_iterable lexer) - m_cursor lexer <= fuel ->
    exists run lexer',
      accumulate_identifier fuel lexer val = Some (val ++ run, lexer')
      /\ extends lexer lexer'
      /\ m_cursor lexer' = m_cursor lexer + String.length run
      /\ run = substring (m_cursor lexer) (String.length run) (m_iterable lexer)
      /\ all_chars is_identifier_char run = true
      /\ match peek lexer' with
         | Some ch => is_identifier_char ch = false
         | None => True
         end.
Proof.
  assert (Hstop : forall lexer val, eof lexer = true ->
    exists run lexer',
      Some (val, lexer) = Some (val ++ run, lexer')
      /\ extends lexer lexer'
      /\ m_cursor lexer' = m_cursor lexer + String.length run
      /\ run = substring (m_cursor lexer) (String.length run) (m_iterable lexer)
      /\ all_chars is_identifier_char run = true
      /\ match peek lexer' with
         | Some ch => is_identifier_char ch = false
         | None => True
         end).
  { intros lexer val E. exists "", lexer; splits.
    - now rewrite append_empty_r.
    - apply extends_refl.
    - simpl; lia.
    - simpl; now rewrite substring_none.
    - reflexivity.
    - apply eof_peek in E; rewrite E; exact I. }
  induction fuel as [|fuel IH]; intros lexer val Hfuel; simpl.
  - assert (E : eof lexer = true) by (apply eof_true_iff; lia).
    rewrite E; auto.
  - destruct (eof lexer) eqn:E; [auto|].
    destruct (not_eof_peek _ E) as [ch Hch].
    unfold value; rewrite Hch; simpl.
    fold (is_identifier_char ch).
    destruct (is_identifier_char ch) eqn:Hid.
    + destruct (IH (advance 1 lexer) (val ++ String ch ""))
        as (run & lexer' & Hrun & Hext & Hcur & Hsub & Hall & Hpeek).
      { simpl; lia. }
      exists (String ch run), lexer'; splits.
      * rewrite Hrun, append_assoc; reflexivity.
      * apply extends_trans with (advance 1 lexer); auto with lexer.
      * simpl in *; lia.
      * simpl String.length. rewrite (substring_next _ _ _ _ Hch).
        f_equal. simpl in Hsub. now rewrite Nat.add_1_r in Hsub.
      * simpl; now rewrite Hid.
      * exact Hpeek.
    + exists "", lexer; splits.
      * now rewrite append_empty_r.
      * apply extends_refl.
      * simpl; lia.
      * simpl; now rewrite substring_none.
      * reflexivity.
      * rewrite Hch; exact Hid.
Qed.

(** * Properties of the tokenizer *)

Section LexerFacts.

Context {keywords : KeywordTable}.

(** The identifier path never aborts; its token carries the run of
    [[A-Za-z0-9_]] that starts at the cursor, and the kind the keyword
    table resolves it to. *)
Lemma lex_keyword_or_identifier_spec (lexer : Lexer) :
  exists run lexer',
    lex_keyword_or_identifier lexer
    = Some (Token.create
              (if in_keyword_table run then is_keyword run
               else Token.IDENTIFIER)
              run (Position.create (cursor lexer) (cursor lexer')), lexer')
    /\ extends lexer lexer'
    /\ m_cursor lexer' = m_cursor lexer + String.length run
    /\ run = substring (m_cursor lexer) (String.length run) (m_iterable lexer)
    /\ all_chars is_identifier_char run = true
    /\ match peek lexer' with
       | Some ch => is_identifier_char ch = false
       | None => True
       end.
Proof.
  destruct (accumulate_identifier_spec
              (String.length (m_iterable lexer) - m_cursor lexer) lexer "")
    as (run & lexer' & Hrun & Hrest); [lia|].
  exists run, lexer'; split; [|exact Hrest].
  unfold lex_keyword_or_identifier; rewrite Hrun; simpl.
  unfold in_keyword_table; destruct (is_keyword run); reflexivity.
Qed.

Lemma in_keyword_table_kind (lexeme : string) :
  (if in_keyword_table lexeme then is_keyword lexeme else Token.IDENTIFIER)
  <> Token.END_OF_FILE.
Proof.
  unfold in_keyword_table; destruct (is_keyword lexeme); discriminate.
Qed.

(** Every case of the switch yields a token that is not the sentinel, whose
    position ends at the cursor it leaves; the six single-character cases
    start the position there too, the other cases at the cursor they
    found. *)
Lemma dispatch_spec (ch : ascii) (lexer : Lexer) :
  peek lexer = Some ch ->
  exists token lexer',
    dispatch ch lexer = Some (token, lexer')
    /\ extends lexer lexer'
    /\ Token.m_type token <> Token.END_OF_FILE
    /\ Position.m_end (Token.m_position token) = cursor lexer'
    /\ Position.m_start (Token.m_position token)
       = (if is_single_punctuation ch then cursor lexer' else cursor lexer)
    /\ (is_single_punctuation ch = true -> cursor lexer' = cursor lexer + 1)
    /\ (is_recognised ch = true -> is_whitespace ch = false ->
        cursor lexer < cursor lexer').
Proof.
  intros Hpeek. unfold dispatch.
  switch_on ch;
    try (cbv beta zeta delta
           [lex_minus lex_equal_sign lex_plus lex_less_than];
         repeat match goal with
           | |- context [is_char ?o ?c] => destruct (is_char o c)
           end;
         (eexists _, _; splits;
          [ reflexivity | apply extends_advance | discriminate
          | reflexivity | reflexivity
          | intros H; try (vm_compute in H; discriminate H);
            unfold cursor; simpl; lia
          | intros; unfold cursor; simpl; lia ])).
  assert (Hpunct : is_single_punctuation ch = false).
  { unfold is_single_punctuation. failed_tests. reflexivity. }
  destruct (lex_keyword_or_identifier_spec lexer)
    as (run & lexer' & Hlex & Hext & Hcur & _ & _ & Hstop).
  eexists _, lexer'; splits.
  - exact Hlex.
  - exact Hext.
  - apply in_keyword_table_kind.
  - reflexivity.
  - rewrite Hpunct; reflexivity.
  - congruence.
  - intros Hrec Hws.
    assert (Hid : is_identifier_char ch = true).
    { revert Hrec. unfold is_recognised, is_operator_start.
      rewrite Hws, Hpunct. failed_tests. simpl. auto. }
    destruct run as [|c run]; [|unfold cursor; simpl in Hcur; lia].
    exfalso. destruct Hext as (Hsrc & _ & _).
    unfold peek in Hstop, Hpeek.
    simpl in Hcur; rewrite Nat.add_0_r in Hcur.
    rewrite Hcur, Hsrc, Hpeek in Hstop. congruence.
Qed.

Lemma next_token_errors (lexer : Lexer) :
  Supervisor.has_errors (m_supervisor lexer) = true ->
  next_token lexer = Some (Token.create_dumb, lexer).
Proof. intros H; unfold next_token; now rewrite H. Qed.

(** Without errors, [next_token] skips the whitespace and then either
    meets the end of the source or enters the switch. *)
Lemma next_token_spec (lexer : Lexer) :
  Supervisor.has_errors (m_supervisor lexer) = false ->
  exists lexer0,
    skip_whitespaces lexer = Some lexer0
    /\ extends lexer lexer0
    /\ match peek lexer0 with
       | Some ch =>
           is_whitespace ch = false /\ next_token lexer = dispatch ch lexer0
       | None => next_token lexer = Some (Token.create_dumb, lexer0)
       end.
Proof.
  intros Herr.
  destruct (skip_whitespaces_spec lexer)
    as (lexer0 & Hskip & Hext & Hstop & _).
  exists lexer0; splits; auto.
  unfold next_token; rewrite Herr, Hskip; simpl.
  destruct (peek lexer0) as [ch|]; auto.
Qed.

Lemma matches_iff (token : Token.t) (type : Token.Type_) :
  Token.matches token type = true <-> Token.m_type token = type.
Proof.
  unfold Token.matches.
  destruct (Token.Type_eq_dec (Token.m_type token) type);
    split; congruence.
Qed.

Lemma matches_false_iff (token : Token.t) (type : Token.Type_) :
  Token.matches token type = false <-> Token.m_type token <> type.
Proof.
  unfold Token.matches.
  destruct (Token.Type_eq_dec (Token.m_type token) type);
    split; congruence.
Qed.

(** [next_token] always returns.  The cursor does not move backwards, and a
    token that is not the sentinel lies between the two cursors. *)
Lemma next_token_total (lexer : Lexer) :
  exists token lexer',
    next_token lexer = Some (token, lexer')
    /\ extends lexer lexer'
    /\ (Token.matches token Token.END_OF_FILE = false ->
        cursor lexer <= Position.m_start (Token.m_position token)
        /\ Position.m_end (Token.m_position token) <= cursor lexer').
Proof.
  destruct (Supervisor.has_errors (m_supervisor lexer)) eqn:Herr.
  - exists Token.create_dumb, lexer; splits.
    + now apply next_token_errors.
    + apply extends_refl.
    + intros H; apply matches_false_iff in H; now elim H.
  - destruct (next_token_spec lexer Herr) as (lexer0 & _ & Hext & Hnext).
    destruct (peek lexer0) as [ch|] eqn:Hpeek.
    + destruct Hnext as [_ Hnext].
      destruct (dispatch_spec ch lexer0 Hpeek)
        as (token & lexer' & Hd & Hext' & _ & Hend & Hstart & _).
      exists token, lexer'; splits.
      * congruence.
      * eapply extends_trans; eauto.
      * intros _. rewrite Hstart, Hend.
        destruct Hext as (_ & _ & H0), Hext' as (_ & _ & H1).
        unfold cursor; destruct (is_single_punctuation ch); lia.
    + exists Token.create_dumb, lexer0; splits; auto.
      intros H; apply matches_false_iff in H; now elim H.
Qed.

(** ** The loop of [lex] *)

Lemma lex_loop_exit (fuel : nat) (lexer : Lexer) (tokens : list Token.t) :
  lex_continues lexer = false ->
  lex_loop fuel lexer tokens = Returned tokens.
Proof. intros H; destruct fuel; simpl; now rewrite H. Qed.

Lemma lex_loop_iter (fuel : nat) (lexer lexer' : Lexer)
    (token : Token.t) (tokens : list Token.t) :
  lex_continues lexer = true ->
  next_token lexer = Some (token, lexer') ->
  lex_loop (S fuel) lexer tokens
  = lex_loop fuel lexer' (push_token token tokens).
Proof. intros H1 H2; simpl; now rewrite H1, H2. Qed.

Lemma lex_loop_never_aborts (fuel : nat) :
  forall lexer tokens, lex_loop fuel lexer tokens <> Aborted.
Proof.
  induction fuel as [|fuel IH]; intros lexer tokens; simpl;
    destruct (lex_continues lexer); try discriminate.
  destruct (next_token_total lexer) as (token & lexer' & H & _).
  rewrite H; apply IH.
Qed.

Lemma lex_loop_sound (fuel : nat) :
  forall lexer tokens result,
    lex_loop fuel lexer tokens = Returned result ->
    lex_run lexer tokens result.
Proof.
  induction fuel as [|fuel IH]; intros lexer tokens result; simpl;
    destruct (lex_continues lexer) eqn:Hc; try discriminate;
    try (intros [= <-]; now apply lex_run_exit).
  destruct (next_token lexer) as [[token lexer']|] eqn:Hn; [|discriminate].
  intros H; eapply lex_run_iter; eauto.
Qed.

Lemma lex_run_complete (lexer : Lexer) (tokens result : list Token.t) :
  lex_run lexer tokens result ->
  exists fuel, lex_loop fuel lexer tokens = Returned result.
Proof.
  induction 1
    as [lexer tokens Hc | lexer tokens token lexer' result Hc Hn _ [fuel IH]].
  - exists 0; now apply lex_loop_exit.
  - exists (S fuel); now rewrite (lex_loop_iter _ _ _ _ _ Hc Hn).
Qed.

Lemma lex_run_reaches (source : string) (supervisor : Supervisor.t)
    (lexer : Lexer) (tokens result : list Token.t) :
  lex_run lexer tokens result ->
  lex_reaches source supervisor lexer tokens ->
  exists lexer', lex_reaches source supervisor lexer' result.
Proof.
  induction 1
    as [lexer tokens Hc | lexer tokens token lexer' result Hc Hn _ IH];
    intros Hr.
  - eauto.
  - apply IH. eapply lex_reaches_iter; eauto.
Qed.

(** What the loop has stored is never taken back. *)
Lemma lex_run_prefix (lexer : Lexer) (tokens result : list Token.t) :
  lex_run lexer tokens result ->
  exists suffix, result = (tokens ++ suffix)%list.
Proof.
  induction 1
    as [lexer tokens Hc
       | lexer tokens token lexer' result Hc Hn _ [suffix IH]].
  - exists []; now rewrite app_nil_r.
  - unfold push_token in IH.
    destruct (Token.matches token Token.END_OF_FILE); eauto.
    exists (token :: suffix). rewrite IH, <- app_assoc. reflexivity.
Qed.

(** ** Positions along a run *)

Lemma back_snoc {A : Type} (l : list A) (x : A) : back (l ++ [x])%list = Some x.
Proof. unfold back; now rewrite rev_unit. Qed.

Lemma nth_error_back {A : Type} (l : list A) (i : nat) (x : A) :
  nth_error l i = Some x -> S i = List.length l -> back l = Some x.
Proof.
  destruct l as [|y l'] using rev_ind; [discriminate|]; intros H Hlen.
  rewrite back_snoc. rewrite length_app in Hlen; simpl in Hlen.
  rewrite nth_error_app2 in H by lia.
  replace (i - List.length l') with 0 in H by lia. exact H.
Qed.

Lemma positions_ordered_snoc (bound : nat) (tokens : list Token.t)
    (token : Token.t) :
  positions_ordered tokens ->
  ends_before bound tokens ->
  bound <= Position.m_start (Token.m_position token) ->
  positions_ordered (tokens ++ [token])%list.
Proof.
  intros Hord Hend Hstart i t1 t2 H1 H2.
  destruct (Nat.lt_ge_cases (S i) (List.length tokens)) as [Hlt|Hge].
  - rewrite nth_error_app1 in H1, H2 by lia. eauto.
  - assert (Hlen : S i = List.length tokens).
    { assert (S i < List.length (tokens ++ [token])%list)
        by (apply nth_error_Some; congruence).
      rewrite length_app in *; simpl in *; lia. }
    rewrite nth_error_app1 in H1 by lia.
    rewrite nth_error_app2 in H2 by lia.
    replace (S i - List.length tokens) with 0 in H2 by lia.
    injection H2 as <-.
    specialize (Hend t1 (nth_error_back _ _ _ H1 Hlen)). lia.
Qed.

Lemma ends_before_le (bound bound' : nat) (tokens : list Token.t) :
  ends_before bound tokens -> bound <= bound' -> ends_before bound' tokens.
Proof. intros H Hle t Ht; specialize (H t Ht); lia. Qed.

Lemma ends_before_snoc (bound : nat) (tokens : list Token.t)
    (token : Token.t) :
  Position.m_end (Token.m_position token) <= bound ->
  ends_before bound (tokens ++ [token])%list.
Proof. intros H t Ht; rewrite back_snoc in Ht; now injection Ht as <-. Qed.

(** Every state of the loop reads the source it was given, and holds
    tokens that are ordered and behind the cursor. *)
Lemma lex_reaches_invariant (source : string) (supervisor : Supervisor.t)
    (lexer : Lexer) (tokens : list Token.t) :
  lex_reaches source supervisor lexer tokens ->
  m_iterable lexer = source
  /\ m_supervisor lexer = supervisor
  /\ positions_ordered tokens
  /\ ends_before (cursor lexer) tokens.
Proof.
  induction 1
    as [|lexer tokens token lexer' _ (Hsrc & Hsup & Hord & Hend) Hc Hn].
  - splits; try reflexivity.
    + intros [|i] t1 t2; discriminate.
    + intros t; discriminate.
  - destruct (next_token_total lexer)
      as (token0 & lexer0 & Hn0 & (Hs & Hp & Hle) & Hpos).
    rewrite Hn in Hn0; injection Hn0 as <- <-.
    splits; try congruence; unfold push_token;
      destruct (Token.matches token Token.END_OF_FILE) eqn:Hm.
    + exact Hord.
    + destruct (Hpos eq_refl) as [H1 H2].
      eapply positions_ordered_snoc; eauto.
    + eapply ends_before_le; eauto.
    + destruct (Hpos eq_refl) as [H1 H2].
      now apply ends_before_snoc.
Qed.

(** ** Termination on the recognised alphabet *)

Lemma all_chars_get (p : ascii -> bool) (s : string) (n : nat) (ch : ascii) :
  all_chars p s = true -> String.get n s = Some ch -> p ch = true.
Proof.
  revert n; induction s as [|c s IH]; intros n Hall Hget.
  - destruct n; discriminate.
  - simpl in Hall; apply andb_true_iff in Hall as [Hc Hs].
    destruct n as [|n]; simpl in Hget.
    + now injection Hget as <-.
    + eauto.
Qed.

Lemma lex_loop_terminates (fuel : nat) :
  forall lexer tokens,
    all_chars is_recognised (m_iterable lexer) = true ->
    String.length (m_iterable lexer) - m_cursor lexer < fuel ->
    exists result, lex_loop fuel lexer tokens = Returned result.
Proof.
  induction fuel as [|fuel IH]; intros lexer tokens Hall Hfuel; [lia|].
  destruct (lex_continues lexer) eqn:Hc.
  2:{ exists tokens; now apply lex_loop_exit. }
  pose proof Hc as Hc'.
  unfold lex_continues in Hc'; apply andb_true_iff in Hc' as [Heof Herr].
  apply negb_true_iff in Heof, Herr. apply eof_false_iff in Heof.
  destruct (next_token_spec lexer Herr)
    as (lexer0 & _ & (Hs0 & Hp0 & Hle0) & Hnext).
  destruct (peek lexer0) as [ch|] eqn:Hpeek.
  - destruct Hnext as [Hws Hnext].
    destruct (dispatch_spec ch lexer0 Hpeek)
      as (token & lexer' & Hd & (Hs1 & Hp1 & Hle1) & _ & _ & _ & _ & Hprog).
    rewrite Hd in Hnext.
    rewrite (lex_loop_iter _ _ _ _ _ Hc Hnext).
    apply IH.
    + rewrite Hs1, Hs0; exact Hall.
    + assert (Hrec : is_recognised ch = true).
      { refine (all_chars_get _ _ _ _ _ Hpeek); now rewrite Hs0. }
      specialize (Hprog Hrec Hws). unfold cursor in Hprog.
      rewrite Hs1, Hs0. lia.
  - rewrite (lex_loop_iter _ _ _ _ _ Hc Hnext).
    exists (push_token Token.create_dumb tokens).
    apply lex_loop_exit. unfold lex_continues.
    apply eof_peek in Hpeek; now rewrite Hpeek.
Qed.

(** ** The unguarded identifier path *)

(** On ["!"] the identifier path collects nothing: [next_token] yields a
    token with an empty lexeme and leaves the lexer where it was. *)
Lemma next_token_bang :
  next_token (Lexer_new "!" Supervisor.fresh)
  = Some (Token.create
            (if in_keyword_table "" then is_keyword "" else Token.IDENTIFIER)
            "" (Position.create 0 0),
          Lexer_new "!" Supervisor.fresh).
Proof. cbv -[is_keyword]. destruct (is_keyword ""); reflexivity. Qed.

Lemma lex_loop_bang (fuel : nat) :
  forall tokens,
    lex_loop fuel (Lexer_new "!" Supervisor.fresh) tokens = OutOfFuel.
Proof.
  induction fuel as [|fuel IH]; intros tokens; [reflexivity|].
  rewrite (lex_loop_iter fuel (Lexer_new "!" Supervisor.fresh) _ _ tokens
             eq_refl next_token_bang).
  apply IH.
Qed.

(** C1, lexer totality, at the source ["!"]: the character is neither
    punctuation nor whitespace nor in [[A-Za-z0-9_]], the identifier path
    consumes nothing, and the loop of [lex] runs for ever: whatever the
    keyword table, no bound on the iterations lets [lex] return, and no run
    of the loop ends. *)
Theorem lex_bang_never_returns :
  (forall fuel, lex fuel "!" Supervisor.fresh = OutOfFuel)
  /\ ~ (exists tokens, lex_returns "!" Supervisor.fresh tokens).
Proof.
  split.
  - intros fuel; apply lex_loop_bang.
  - intros [tokens H]. apply lex_run_complete in H as [fuel H].
    rewrite lex_loop_bang in H. discriminate.
Qed.

(** X1.  On the recognised alphabet (whitespace, the punctuation of the
    switch and [[A-Za-z0-9_]]) every iteration consumes a character, and
    [lex] returns within one iteration per character and one more. *)
Lemma lex_terminates_on_recognised (source : string)
    (supervisor : Supervisor.t) :
  all_chars is_recognised source = true ->
  exists tokens,
    lex (S (String.length source)) source supervisor = Returned tokens
    /\ lex_returns source supervisor tokens.
Proof.
  intros Hall.
  destruct (lex_loop_terminates (S (String.length source))
              (Lexer_new source supervisor) [] Hall) as [tokens H].
  { simpl; lia. }
  exists tokens; split; [exact H|]. now apply lex_loop_sound in H.
Qed.

(** *** Every source with a character outside the alphabet

    The cursor never passes a character that no case consumes, so the
    loop of [lex] never meets the end of such a source. *)

Lemma all_chars_false (p : ascii -> bool) (s : string) :
  all_chars p s = false ->
  exists k ch, String.get k s = Some ch /\ p ch = false.
Proof.
  induction s as [|c s IH]; simpl; [discriminate|].
  destruct (p c) eqn:Hc; simpl.
  - intros H; destruct (IH H) as (k & ch & Hk & Hch).
    exists (S k), ch; auto.
  - intros _; exists 0, c; auto.
Qed.

Lemma skip_whitespaces_loop_bound (k : nat) (ch : ascii) (fuel : nat) :
  forall lexer lexer',
    String.get k (m_iterable lexer) = Some ch ->
    is_whitespace ch = false ->
    m_cursor lexer <= k ->
    skip_whitespaces_loop fuel lexer = Some lexer' ->
    m_cursor lexer' <= k.
Proof.
  induction fuel as [|fuel IH]; intros lexer lexer' Hk Hws Hle; simpl;
    destruct (eof lexer); try discriminate; try (now intros [= <-]).
  unfold value, peek.
  destruct (String.get (m_cursor lexer) (m_iterable lexer)) as [c|] eqn:Hc;
    simpl; [|discriminate].
  destruct (is_whitespace c) eqn:Hwsc; [|now intros [= <-]].
  apply IH; simpl; auto.
  destruct (Nat.eq_dec (m_cursor lexer) k) as [E|E]; [|lia].
  rewrite E in Hc; congruence.
Qed.

Lemma accumulate_identifier_bound (k : nat) (ch : ascii) (fuel : nat) :
  forall lexer val val' lexer',
    String.get k (m_iterable lexer) = Some ch ->
    is_identifier_char ch = false ->
    m_cursor lexer <= k ->
    accumulate_identifier fuel lexer val = Some (val', lexer') ->
    m_cursor lexer' <= k.
Proof.
  induction fuel as [|fuel IH]; intros lexer val val' lexer' Hk Hid Hle;
    simpl; destruct (eof lexer); try discriminate;
    try (now intros [= _ <-]).
  unfold value, peek.
  destruct (String.get (m_cursor lexer) (m_iterable lexer)) as [c|] eqn:Hc;
    simpl; [|discriminate].
  fold (is_identifier_char c).
  destruct (is_identifier_char c) eqn:Hidc; [|now intros [= _ <-]].
  apply IH; simpl; auto.
  destruct (Nat.eq_dec (m_cursor lexer) k) as [E|E]; [|lia].
  rewrite E in Hc; congruence.
Qed.

Lemma lex_keyword_or_identifier_bound (k : nat) (ch : ascii)
    (lexer lexer' : Lexer) (token : Token.t) :
  String.get k (m_iterable lexer) = Some ch ->
  is_identifier_char ch = false ->
  m_cursor lexer <= k ->
  lex_keyword_or_identifier lexer = Some (token, lexer') ->
  m_cursor lexer' <= k.
Proof.
  intros Hk Hid Hle. unfold lex_keyword_or_identifier.
  destruct (accumulate_identifier _ lexer "") as [[val lexer0]|] eqn:Hacc;
    simpl; [|discriminate].
  pose proof (accumulate_identifier_bound _ _ _ _ _ _ _ Hk Hid Hle Hacc).
  destruct (is_keyword val); now intros [= _ <-].
Qed.

Lemma dispatch_bound (k : nat) (ch c : ascii) (lexer lexer' : Lexer)
    (token : Token.t) :
  String.get k (m_iterable lexer) = Some ch ->
  is_lexable ch = false ->
  peek lexer = Some c ->
  m_cursor lexer <= k ->
  dispatch c lexer = Some (token, lexer') ->
  m_cursor lexer' <= k.
Proof.
  intros Hk Hbad Hpeek Hle.
  assert (Hid : is_identifier_char ch = false).
  { destruct (is_identifier_char ch) eqn:E; [|reflexivity].
    unfold is_lexable, is_recognised in Hbad.
    now rewrite E, orb_true_r in Hbad. }
  assert (Hlt : is_lexable c = true -> m_cursor lexer < k).
  { intros Hc. destruct (Nat.eq_dec (m_cursor lexer) k) as [E|E]; [|lia].
    unfold peek in Hpeek; rewrite E in Hpeek; congruence. }
  assert (Hlt2 : forall x, is_char (peek_ahead 1 lexer) x = true ->
                           is_lexable x = true -> m_cursor lexer + 1 <> k).
  { intros x Hx Hlex E. unfold peek_ahead in Hx; rewrite E, Hk in Hx.
    simpl in Hx; apply Ascii.eqb_eq in Hx; congruence. }
  unfold dispatch. switch_on c;
    try (cbv beta zeta delta
           [lex_minus lex_equal_sign lex_star lex_plus lex_less_than
            single_punctuation];
         specialize (Hlt eq_refl);
         repeat match goal with
           | |- context [is_char ?o ?x] =>
               let E := fresh "Hx" in
               destruct (is_char o x) eqn:E;
               [specialize (Hlt2 x E eq_refl)|]
           end;
         intros [= _ <-]; simpl; lia).
  eapply lex_keyword_or_identifier_bound; eauto.
Qed.

(** The loop of [lex] stays in front of a character outside the alphabet. *)
Lemma lex_reaches_bound (source : string) (k : nat) (ch : ascii)
    (lexer : Lexer) (tokens : list Token.t) :
  String.get k source = Some ch ->
  is_lexable ch = false ->
  lex_reaches source Supervisor.fresh lexer tokens ->
  m_cursor lexer <= k.
Proof.
  intros Hk Hbad Hr.
  induction Hr as [|lexer tokens token lexer' Hr IH Hc Hn]; [simpl; lia|].
  apply lex_reaches_invariant in Hr as (Hsrc & Hsup & _).
  assert (Hws : is_whitespace ch = false).
  { destruct (is_whitespace ch) eqn:E; [|reflexivity].
    unfold is_lexable, is_recognised in Hbad. now rewrite E in Hbad. }
  assert (Herr : Supervisor.has_errors (m_supervisor lexer) = false)
    by now rewrite Hsup.
  destruct (next_token_spec lexer Herr) as (lexer0 & Hskip & (Hs0 & _) & Hnext).
  assert (H0 : m_cursor lexer0 <= k).
  { eapply skip_whitespaces_loop_bound; try exact Hskip; eauto.
    now rewrite Hsrc. }
  destruct (peek lexer0) as [c|] eqn:Hpeek.
  - destruct Hnext as [_ Hnext]. rewrite Hn in Hnext.
    eapply dispatch_bound; eauto. now rewrite Hs0, Hsrc.
  - rewrite Hn in Hnext; now injection Hnext as _ <-.
Qed.

(** X2.  With a fresh sink, [lex] returns on no source that holds a
    character which is neither whitespace, nor punctuation, nor in
    [[A-Za-z0-9_]]. *)
Lemma lex_never_returns_outside_alphabet (source : string) :
  all_chars is_lexable source = false ->
  ~ (exists tokens, lex_returns source Supervisor.fresh tokens).
Proof.
  intros Hall [tokens Hrun].
  destruct (all_chars_false _ _ Hall) as (k & ch & Hk & Hbad).
  assert (Hexit : forall lexer tokens result,
            lex_run lexer tokens result ->
            lex_reaches source Supervisor.fresh lexer tokens -> False).
  { induction 1 as [lexer ts Hc | lexer ts token lexer' result Hc Hn _ IH];
      intros Hr.
    - pose proof (lex_reaches_bound _ _ _ _ _ Hk Hbad Hr) as Hle.
      apply lex_reaches_invariant in Hr as (Hsrc & Hsup & _).
      unfold lex_continues in Hc; rewrite Hsup in Hc; simpl in Hc.
      rewrite andb_true_r in Hc. apply negb_false_iff, eof_true_iff in Hc.
      assert (k < String.length source).
      { destruct (Nat.lt_ge_cases k (String.length source)); auto.
        apply get_length_iff in H; congruence. }
      rewrite Hsrc in Hc. lia.
    - apply IH. eapply lex_reaches_iter; eauto. }
  exact (Hexit _ _ _ Hrun (lex_reaches_entry source Supervisor.fresh)).
Qed.

(** ** Keywords and identifiers *)

(** C6, keyword priority.  The identifier-or-keyword path returns a token
    whose lexeme is the maximal run of [[A-Za-z0-9_]] at the cursor (the run
    is read off the source, made of characters of the class, and followed
    by the end of the source or by a character outside the class).  Its kind
    is [IDENTIFIER] if and only if the lexeme is not in the keyword table,
    and otherwise the kind the table maps the lexeme to, which is never
    [END_OF_FILE].  With a table that holds [mut] and neither [foo_bar] nor
    [mutation], the source ["mut foo_bar mutation"] lexes to the kinds
    [KEYWORD mut], [IDENTIFIER], [IDENTIFIER]. *)
Theorem keyword_priority :
  (forall lexer,
     exists token lexer',
       lex_keyword_or_identifier lexer = Some (token, lexer')
       /\ Token.m_lexeme token
          = substring (cursor lexer) (cursor lexer' - cursor lexer)
              (m_iterable lexer)
       /\ all_chars is_identifier_char (Token.m_lexeme token) = true
       /\ match peek lexer' with
          | Some ch => is_identifier_char ch = false
          | None => True
          end
       /\ (Token.m_type token = Token.IDENTIFIER
           <-> in_keyword_table (Token.m_lexeme token) = false)
       /\ (in_keyword_table (Token.m_lexeme token) = true ->
           Token.m_type token = is_keyword (Token.m_lexeme token))
       /\ Token.m_type token <> Token.END_OF_FILE)
  /\ (is_keyword "mut" = Token.KEYWORD "mut" ->
      in_keyword_table "foo_bar" = false ->
      in_keyword_table "mutation" = false ->
      exists tokens,
        lex 3 "mut foo_bar mutation" Supervisor.fresh = Returned tokens
        /\ map Token.m_type tokens
           = [Token.KEYWORD "mut"; Token.IDENTIFIER; Token.IDENTIFIER]
        /\ map Token.m_lexeme tokens = ["mut"; "foo_bar"; "mutation"]).
Proof.
  split.
  - intros lexer.
    destruct (lex_keyword_or_identifier_spec lexer)
      as (run & lexer' & Hlex & _ & Hcur & Hsub & Hall & Hstop).
    eexists _, lexer'; splits; [exact Hlex|..]; simpl; auto.
    + unfold cursor; rewrite Hcur.
      replace (m_cursor lexer + String.length run - m_cursor lexer)
        with (String.length run) by lia.
      exact Hsub.
    + unfold in_keyword_table.
      destruct (is_keyword run); split; congruence.
    + intros ->; reflexivity.
    + apply in_keyword_table_kind.
  - unfold in_keyword_table. intros Hmut H1 H2.
    exists
      [ Token.create (Token.KEYWORD "mut") "mut" (Position.create 0 3);
        Token.create Token.IDENTIFIER "foo_bar" (Position.create 4 11);
        Token.create Token.IDENTIFIER "mutation" (Position.create 12 20) ].
    splits; try reflexivity.
    cbv -[is_keyword]. rewrite Hmut.
    destruct (is_keyword "foo_bar"); try discriminate H1;
      destruct (is_keyword "mutation"); try discriminate H2; reflexivity.
Qed.

(** ** The minus sign *)

(** C7, minus disambiguation.  When the character after the whitespace is
    ['-'], [next_token] is [lex_minus]: it emits [ARROW] and advances by
    two if ['>'] follows, [MINUS_MINUS] and advances by two if ['-']
    follows, and [MINUS], advancing by one, otherwise, also when nothing
    follows.  The source ["- -> --"] lexes to [MINUS], [ARROW],
    [MINUS_MINUS] with the lexemes ["-"], ["->"], ["--"]. *)
Theorem minus_disambiguation :
  (forall lexer lexer0,
     Supervisor.has_errors (m_supervisor lexer) = false ->
     skip_whitespaces lexer = Some lexer0 ->
     peek lexer0 = Some "-"%char ->
     let start := cursor lexer0 in
     (peek_ahead 1 lexer0 = Some ">"%char ->
      next_token lexer
      = Some (Token.create Token.ARROW "->"
                (Position.create start (start + 2)), advance 2 lexer0))
     /\ (peek_ahead 1 lexer0 = Some "-"%char ->
         next_token lexer
         = Some (Token.create Token.MINUS_MINUS "--"
                   (Position.create start (start + 2)), advance 2 lexer0))
     /\ (peek_ahead 1 lexer0 <> Some ">"%char ->
         peek_ahead 1 lexer0 <> Some "-"%char ->
         next_token lexer
         = Some (Token.create Token.MINUS "-"
                   (Position.create start (start + 1)), advance 1 lexer0))
     /\ (eof (advance 1 lexer0) = true ->
         next_token lexer
         = Some (Token.create Token.MINUS "-"
                   (Position.create start (start + 1)), advance 1 lexer0)))
  /\ (exists tokens,
        lex 3 "- -> --" Supervisor.fresh = Returned tokens
        /\ map Token.m_type tokens
           = [Token.MINUS; Token.ARROW; Token.MINUS_MINUS]
        /\ map Token.m_lexeme tokens = ["-"; "->"; "--"]).
Proof.
  split.
  - intros lexer lexer0 Herr Hskip Hpeek start.
    assert (Hnext : next_token lexer = Some (lex_minus lexer0)).
    { unfold next_token; rewrite Herr, Hskip; simpl.
      rewrite Hpeek; reflexivity. }
    assert (Hother : peek_ahead 1 lexer0 <> Some ">"%char ->
                     peek_ahead 1 lexer0 <> Some "-"%char ->
                     next_token lexer
                     = Some (Token.create Token.MINUS "-"
                               (Position.create start (start + 1)),
                             advance 1 lexer0)).
    { intros H1 H2. rewrite Hnext; unfold lex_minus.
      destruct (peek_ahead 1 lexer0) as [c|]; simpl; [|reflexivity].
      destruct (Ascii.eqb_spec c ">"); [congruence|].
      destruct (Ascii.eqb_spec c "-"); [congruence|]. reflexivity. }
    splits.
    + intros H; rewrite Hnext; unfold lex_minus; rewrite H; reflexivity.
    + intros H; rewrite Hnext; unfold lex_minus; rewrite H; reflexivity.
    + exact Hother.
    + intros Heof. apply eof_peek in Heof.
      unfold peek in Heof; simpl in Heof. unfold peek_ahead in Hother.
      apply Hother; rewrite Heof; discriminate.
  - eexists; splits; reflexivity.
Qed.

(** ** Errors *)

(** C8, failure semantics.  [next_token] and the loop of [lex] never abort.
    Once the sink has errors, [next_token] returns the dumb token and the
    lexer as it was, and the loop of [lex] returns the tokens it holds, so
    [lex] with a sink that has errors returns no token; the tokens a run
    returns extend the tokens held at any state of the run. *)
Theorem lexer_quiesces_on_errors :
  (forall lexer, exists token lexer', next_token lexer = Some (token, lexer'))
  /\ (forall fuel lexer tokens, lex_loop fuel lexer tokens <> Aborted)
  /\ (forall lexer,
        Supervisor.has_errors (m_supervisor lexer) = true ->
        next_token lexer = Some (Token.create_dumb, lexer))
  /\ (forall fuel lexer tokens,
        Supervisor.has_errors (m_supervisor lexer) = true ->
        lex_loop fuel lexer tokens = Returned tokens)
  /\ (forall fuel source supervisor,
        Supervisor.has_errors supervisor = true ->
        lex fuel source supervisor = Returned [])
  /\ (forall lexer tokens result,
        lex_run lexer tokens result ->
        exists suffix, result = (tokens ++ suffix)%list).
Proof.
  splits.
  - intros lexer. destruct (next_token_total lexer) as (t & l & H & _); eauto.
  - intros fuel; apply lex_loop_never_aborts.
  - apply next_token_errors.
  - intros fuel lexer tokens H. apply lex_loop_exit.
    unfold lex_continues; rewrite H. apply andb_false_r.
  - intros fuel source supervisor H. apply lex_loop_exit.
    unfold lex_continues; simpl; rewrite H. apply andb_false_r.
  - apply lex_run_prefix.
Qed.

(** ** Positions *)

(** C9, positional monotonicity: in the sequence [lex] returns, every token
    ends at or before the offset at which the next one starts. *)
Theorem positional_monotonicity (source : string)
    (supervisor : Supervisor.t) (tokens : list Token.t) :
  lex_returns source supervisor tokens ->
  positions_ordered tokens.
Proof.
  intros H.
  destruct (lex_run_reaches source supervisor _ _ _ H
              (lex_reaches_entry source supervisor)) as [lexer Hr].
  now apply lex_reaches_invariant in Hr.
Qed.

(** The six single-character cases of the switch. *)
Lemma dispatch_single_punctuation (ch : ascii) (lexer : Lexer) :
  is_single_punctuation ch = true ->
  exists type,
    is_single_punctuation_kind type = true
    /\ dispatch ch lexer
       = Some (single_punctuation type (String ch "") lexer).
Proof.
  intros H. unfold dispatch.
  switch_on ch; try discriminate H;
    try (eexists; split; [|reflexivity]; reflexivity).
  exfalso; revert H; unfold is_single_punctuation; failed_tests.
  discriminate.
Qed.

(** C10, the positions of the single-character cases.  A token emitted for
    one of ['('], [')'], ['{'], ['}'], [';'], [','] is of the matching
    punctuation kind, and its position starts and ends at the cursor one
    past the character; a token of any other case (star, minus, equal,
    plus, less-than, identifier) starts at the offset of its first
    character and ends at the cursor after it. *)
Theorem punctuation_positions (lexer lexer0 lexer' : Lexer) (ch : ascii)
    (token : Token.t) :
  Supervisor.has_errors (m_supervisor lexer) = false ->
  skip_whitespaces lexer = Some lexer0 ->
  peek lexer0 = Some ch ->
  next_token lexer = Some (token, lexer') ->
  Position.m_end (Token.m_position token) = cursor lexer'
  /\ (is_single_punctuation ch = true ->
      is_single_punctuation_kind (Token.m_type token) = true
      /\ Token.m_lexeme token = String ch ""
      /\ cursor lexer' = cursor lexer0 + 1
      /\ Position.m_start (Token.m_position token) = cursor lexer0 + 1
      /\ Position.m_end (Token.m_position token) = cursor lexer0 + 1)
  /\ (is_single_punctuation ch = false ->
      Position.m_start (Token.m_position token) = cursor lexer0).
Proof.
  intros Herr Hskip Hpeek Hnext.
  assert (Hd : dispatch ch lexer0 = Some (token, lexer')).
  { rewrite <- Hnext. unfold next_token; rewrite Herr, Hskip; simpl.
    now rewrite Hpeek. }
  destruct (dispatch_spec ch lexer0 Hpeek)
    as (token0 & lexer0' & Hd0 & _ & _ & Hend & Hstart & Hone & _).
  rewrite Hd in Hd0; injection Hd0 as <- <-.
  splits.
  - exact Hend.
  - intros Hp. rewrite Hp in Hstart. specialize (Hone Hp).
    destruct (dispatch_single_punctuation ch lexer0 Hp) as (type & Hk & Hd1).
    rewrite Hd in Hd1; injection Hd1 as Ht Hl.
    splits; try congruence. rewrite Ht; exact Hk. rewrite Ht; reflexivity.
  - intros Hp. now rewrite Hp in Hstart.
Qed.

End LexerFacts.

(** * Properties of the statement tree *)

Lemma substring_removelast (s : string) :
  substring 0 (String.length s - 1) s
  = string_of_list_ascii (removelast (list_ascii_of_string s)).
Proof.
  induction s as [|c s IH]; [reflexivity|].
  destruct s as [|c' s']; [reflexivity|].
  simpl String.length in *.
  replace (S (String.length s') - 1) with (String.length s') in IH by lia.
  replace (S (S (String.length s')) - 1) with (S (String.length s')) by lia.
  change (substring 0 (S (String.length s')) (String c (String c' s')))
    with (String c (substring 0 (String.length s') (String c' s'))).
  rewrite IH. reflexivity.
Qed.

(** [substr(1, size() - 2)] strips the first and the last character of a
    directive that has a first character. *)
Lemma substr_strip (d : string) :
  1 <= String.length d ->
  (size d < 2 ^ 64)%Z ->
  substr d 1 (size_t_sub (size d) 2) = Some (strip_first_last d).
Proof.
  intros Hlen Hmax. unfold substr, size_t_sub, size in *.
  destruct (Nat.ltb_spec (String.length d) 1) as [|_]; [lia|].
  assert (Hcount :
    Z.to_nat (Z.min ((Z.of_nat (String.length d) - 2) mod 2 ^ 64)
                (Z.of_nat (String.length d) - Z.of_nat 1))
    = String.length d - 2).
  { destruct (Nat.eq_dec (String.length d) 1) as [E|E].
    - rewrite E; reflexivity.
    - rewrite Z.mod_small by lia. lia. }
  rewrite Hcount. f_equal.
  destruct d as [|c s]; [simpl in Hlen; lia|].
  unfold strip_first_last; simpl list_ascii_of_string; simpl tl.
  rewrite <- substring_removelast. simpl String.length.
  replace (S (String.length s) - 2) with (String.length s - 1) by lia.
  destruct s; reflexivity.
Qed.

Lemma fold_left_append (pieces : list string) (acc : string) :
  fold_left (fun acc piece => acc ++ piece) pieces acc
  = acc ++ concat_all pieces.
Proof.
  revert acc; induction pieces as [|p l IH]; intros acc; simpl.
  - now rewrite append_empty_r.
  - now rewrite IH, append_assoc.
Qed.

Lemma occurs_append (c : ascii) (a b : string) :
  occurs c (a ++ b) = occurs c a || occurs c b.
Proof.
  induction a as [|x a IH]; simpl; [reflexivity|].
  now rewrite IH, orb_assoc.
Qed.

(** ** The reading of [dts::split_str] *)

Lemma split_str_from_piece (piece : string) :
  forall current rest delimiter,
    occurs delimiter piece = false ->
    split_str_from current (piece ++ rest) delimiter
    = split_str_from (current ++ piece) rest delimiter.
Proof.
  induction piece as [|c p IH]; intros current rest delimiter Hocc; simpl.
  - now rewrite append_empty_r.
  - simpl in Hocc; apply orb_false_iff in Hocc as [Hc Hp].
    rewrite Hc, IH, append_assoc by exact Hp. reflexivity.
Qed.

Lemma split_str_from_joined :
  splits_joined (fun str delimiter => split_str_from "" str delimiter).
Proof.
  intros delimiter pieces; induction pieces as [|p l IH]; intros Hall.
  - reflexivity.
  - inversion Hall as [|? ? [Hne Hocc] Hl]; subst.
    destruct l as [|q l].
    + simpl. rewrite <- (append_empty_r p) at 1.
      rewrite split_str_from_piece by exact Hocc. simpl.
      destruct p; [congruence | reflexivity].
    + change (String.concat (String delimiter "") (p :: q :: l))
        with (p ++ String delimiter
                     (String.concat (String delimiter "") (q :: l))).
      rewrite split_str_from_piece by exact Hocc. simpl.
      rewrite Ascii.eqb_refl. f_equal. apply IH; exact Hl.
Qed.

Section StatementFacts.

Context {typechecker : Typechecker} {dts : Dts}.

(** ** Blocks *)

Lemma accumulate_block_aborted (m_block : list Statement) :
  fold_left
    (fun acc statement =>
       acc <- acc ;;
       code <- evaluate statement ;;
       if is_EmptyStatement statement
       then Some (acc ++ code)
       else Some (acc ++ code ++ LF))
    m_block None = None.
Proof. induction m_block as [|st l IH]; simpl; auto. Qed.

Lemma accumulate_block_from (m_block : list Statement) :
  forall acc,
    fold_left
      (fun acc statement =>
         acc <- acc ;;
         code <- evaluate statement ;;
         if is_EmptyStatement statement
         then Some (acc ++ code)
         else Some (acc ++ code ++ LF))
      m_block (Some acc)
    = (codes <- children_code m_block ;; Some (acc ++ concat_all codes)).
Proof.
  induction m_block as [|st l IH]; intros acc; simpl.
  - now rewrite append_empty_r.
  - destruct (evaluate st) as [code|]; simpl.
    + unfold child_terminator.
      destruct (is_EmptyStatement st); rewrite IH;
        destruct (children_code l) as [codes|]; simpl; try reflexivity;
        now rewrite ?append_empty_r, ?append_assoc.
    + apply accumulate_block_aborted.
Qed.

(** C4, block composition: a block renders to the renders of its children
    in their order, each followed by a line feed unless the child is an
    [EmptyStatement]; a block aborts exactly when a child does, and the
    empty block renders to the empty string. *)
Theorem block_composition (m_block : list Statement) :
  BlockStatement_evaluate m_block
  = (codes <- children_code m_block ;; Some (concat_all codes))
  /\ BlockStatement_evaluate [] = Some "".
Proof.
  split; [|reflexivity].
  unfold BlockStatement_evaluate.
  change (evaluate (BlockStatement m_block))
    with (accumulate_block evaluate m_block).
  unfold accumulate_block. now rewrite accumulate_block_from.
Qed.

(** ** Modules *)

Lemma accumulate_includes_aborted (m_c_includes : list string) :
  fold_left
    (fun acc c_include =>
       acc <- acc ;;
       inner <- substr c_include 1 (size_t_sub (size c_include) 2) ;;
       Some (acc ++ "#include <" ++ inner ++ ">" ++ LF))
    m_c_includes None = None.
Proof. induction m_c_includes as [|d l IH]; simpl; auto. Qed.

Lemma accumulate_includes_spec (m_c_includes : list string) :
  forall c_module_code,
    Forall (fun d => 1 <= String.length d /\ (size d < 2 ^ 64)%Z)
      m_c_includes ->
    accumulate_includes m_c_includes c_module_code
    = Some (c_module_code ++ concat_all (map include_line m_c_includes)).
Proof.
  unfold accumulate_includes.
  induction m_c_includes as [|d l IH]; intros code Hall.
  - simpl; now rewrite append_empty_r.
  - inversion Hall as [|? ? [Hlen Hmax] Hl]; subst.
    cbn [fold_left bind map]. rewrite (substr_strip d Hlen Hmax).
    cbn [bind]. fold (include_line d).
    rewrite IH by exact Hl.
    change (concat_all (include_line d :: map include_line l))
      with (include_line d ++ concat_all (map include_line l)).
    now rewrite append_assoc.
Qed.

(** A directive without a first character stops the render:
    [substr(1, ...)] of the empty string is out of range. *)
Lemma module_empty_include_aborts (m_name : string)
    (m_c_includes : list string) (m_structs m_functions : list Statement) :
  evaluate (ModuleStatement m_name ("" :: m_c_includes) m_structs
              m_functions)
  = None.
Proof.
  change (evaluate (ModuleStatement m_name ("" :: m_c_includes) m_structs
                      m_functions))
    with (c_module_code <- accumulate_includes ("" :: m_c_includes) "" ;;
          structs <- accumulate_block evaluate m_structs ;;
          functions <- accumulate_block evaluate m_functions ;;
          Some ((((c_module_code ++ LF) ++ structs) ++ LF) ++ functions)).
  unfold accumulate_includes; cbn [fold_left].
  change (substr "" 1 (size_t_sub (size "") 2)) with (@None string).
  cbn [bind]. now rewrite accumulate_includes_aborted.
Qed.

(** C3, module well-formedness.  A module whose include directives have a
    first character renders to one line [#include <INNER>] per directive,
    in order, [INNER] being the directive without its first and its last
    character; then an empty line, the render of the structs block, an
    empty line and the render of the functions block.  The render is the
    same under every module name. *)
Theorem module_render (m_name : string) (m_c_includes : list string)
    (m_structs m_functions : list Statement) (structs functions : string) :
  Forall (fun d => 1 <= String.length d /\ (size d < 2 ^ 64)%Z)
    m_c_includes ->
  BlockStatement_evaluate m_structs = Some structs ->
  BlockStatement_evaluate m_functions = Some functions ->
  evaluate (ModuleStatement m_name m_c_includes m_structs m_functions)
  = Some (concat_all (map include_line m_c_includes)
          ++ LF ++ structs ++ LF ++ functions)
  /\ forall other_name,
       evaluate (ModuleStatement other_name m_c_includes m_structs
                   m_functions)
       = evaluate (ModuleStatement m_name m_c_includes m_structs
                     m_functions).
Proof.
  intros Hinc Hs Hf. split; [|reflexivity].
  unfold BlockStatement_evaluate in Hs, Hf.
  change (evaluate (BlockStatement m_structs))
    with (accumulate_block evaluate m_structs) in Hs.
  change (evaluate (BlockStatement m_functions))
    with (accumulate_block evaluate m_functions) in Hf.
  change (evaluate (ModuleStatement m_name m_c_includes m_structs m_functions))
    with (c_module_code <- accumulate_includes m_c_includes "" ;;
          structs <- accumulate_block evaluate m_structs ;;
          functions <- accumulate_block evaluate m_functions ;;
          Some ((((c_module_code ++ LF) ++ structs) ++ LF) ++ functions)).
  rewrite (accumulate_includes_spec _ _ Hinc), Hs, Hf; simpl bind.
  now rewrite !append_assoc.
Qed.

(** ** Arrays *)

Lemma array_render_exact (m_is_mutable : bool) (m_type : BuiltinType)
    (m_type_extensions m_name m_elements : string) :
  evaluate (ArrayStatement m_is_mutable m_type m_type_extensions m_name
              m_elements)
  = Some ((if m_is_mutable then "" else "const ") ++ " "
          ++ builtin_type_to_c_type m_type ++ " " ++ m_name
          ++ m_type_extensions ++ " = { " ++ m_elements ++ " };").
Proof. reflexivity. Qed.

(** C2, as amended.  An array renders to the marker [const], present
    exactly when the array is not mutable, a run of spaces (not empty after
    the marker), the C type, one space, the name with the type extension
    right after it, and [ = { ELEMENTS };]. *)
Theorem array_render (m_is_mutable : bool) (m_type : BuiltinType)
    (m_type_extensions m_name m_elements : string) :
  exists spaces,
    all_chars (Ascii.eqb " ") spaces = true
    /\ (m_is_mutable = false -> spaces <> "")
    /\ evaluate (ArrayStatement m_is_mutable m_type m_type_extensions m_name
                   m_elements)
       = Some ((if m_is_mutable then "" else "const") ++ spaces
               ++ builtin_type_to_c_type m_type ++ " " ++ m_name
               ++ m_type_extensions ++ " = { " ++ m_elements ++ " };").
Proof.
  destruct m_is_mutable.
  - exists " "; splits; [reflexivity | discriminate | reflexivity].
  - exists "  "; splits; [reflexivity | discriminate | reflexivity].
Qed.

(** ** Functions *)

Lemma concat_nonempty (sep piece : string) (pieces : list string) :
  piece <> "" -> String.concat sep (piece :: pieces) <> "".
Proof.
  intros Hne. destruct pieces as [|q l]; simpl; [exact Hne|].
  destruct piece; [congruence | discriminate].
Qed.

Lemma occurs_concat (c : ascii) (sep : string) (pieces : list string) :
  occurs c sep = false ->
  Forall (fun piece => occurs c piece = false) pieces ->
  occurs c (String.concat sep pieces) = false.
Proof.
  intros Hsep; induction pieces as [|p l IH]; intros Hall; [reflexivity|].
  inversion Hall as [|? ? Hp Hl]; subst.
  destruct l as [|q l]; [exact Hp|].
  change (String.concat sep (p :: q :: l))
    with (p ++ sep ++ String.concat sep (q :: l)).
  rewrite !occurs_append, Hp, Hsep, (IH Hl). reflexivity.
Qed.

Lemma argument_pieces_spaces (a : Argument) :
  well_formed_argument a -> Forall (is_piece " ") (argument_pieces a).
Proof.
  intros [Hall _]. unfold argument_pieces.
  assert (H : Forall (is_piece " ")
                (arg_type a :: arg_extensions a ++ [arg_name a])%list).
  { eapply Forall_impl; [|exact Hall]. now intros p [Hp _]. }
  destruct (arg_mut a); simpl; [|exact H].
  constructor; [|exact H]. split; [discriminate | reflexivity].
Qed.

Lemma argument_pieces_commas (a : Argument) :
  well_formed_argument a ->
  is_piece "," (String.concat " " (argument_pieces a)).
Proof.
  intros [Hall _]. split.
  - unfold argument_pieces. destruct (arg_mut a); simpl app.
    + apply concat_nonempty; discriminate.
    + apply concat_nonempty. inversion Hall as [|? ? [[Hne _] _] _]; auto.
  - apply occurs_concat; [reflexivity|].
    assert (H : Forall (fun piece => occurs "," piece = false)
                  (arg_type a :: arg_extensions a ++ [arg_name a])%list).
    { eapply Forall_impl; [|exact Hall]. now intros p [_ Hp]. }
    unfold argument_pieces. destruct (arg_mut a); simpl app; [|exact H].
    constructor; [reflexivity | exact H].
Qed.

Lemma range_middle {A : Type} (before : list A) (middle : list A) (x : A) :
  range (List.length before)
    (List.length (before ++ middle ++ [x])%list - 1)
    (before ++ middle ++ [x])%list
  = Some middle.
Proof.
  unfold range. rewrite !length_app; simpl List.length.
  replace (List.length before + (List.length middle + 1) - 1)
    with (List.length before + List.length middle) by lia.
  destruct (Nat.ltb_spec (List.length before + List.length middle)
              (List.length before)); [lia|].
  destruct (Nat.ltb_spec (List.length before + (List.length middle + 1))
              (List.length before + List.length middle)); [lia|].
  simpl orb. cbv iota. f_equal.
  rewrite skipn_app, skipn_all, Nat.sub_diag; simpl.
  replace (List.length before + List.length middle - List.length before)
    with (List.length middle + 0) by lia.
  rewrite firstn_app_2. simpl. apply app_nil_r.
Qed.

(** One item, split at its spaces, renders as the specification says. *)
Lemma evaluate_argument_spec (a : Argument) :
  splits_joined split_str ->
  well_formed_argument a ->
  evaluate_argument (String.concat " " (argument_pieces a))
  = Some (argument_code a).
Proof.
  intros Hsplit Hwf. unfold evaluate_argument.
  rewrite (Hsplit " "%char (argument_pieces a) (argument_pieces_spaces a Hwf)).
  destruct Hwf as [_ Hmut].
  unfold argument_pieces, argument_code.
  destruct a as [is_mut ty exts name]; simpl arg_mut in *; simpl arg_type in *;
    simpl arg_extensions; simpl arg_name.
  destruct is_mut.
  - change (["mut"] ++ ty :: exts ++ [name])%list
      with (["mut"; ty] ++ exts ++ [name])%list.
    cbn [hd_error app bind]. rewrite String.eqb_refl.
    cbn [Nat.add nth_error bind].
    change ("mut" :: ty :: (exts ++ [name])%list)
      with (["mut"; ty] ++ exts ++ [name])%list.
    pose proof (range_middle ["mut"; ty] exts name) as Hrange.
    change (List.length ["mut"; ty]) with 2 in Hrange.
    rewrite Hrange. cbn [bind].
    rewrite app_assoc, back_snoc. cbn [bind].
    rewrite fold_left_append. reflexivity.
  - assert (Hty : String.eqb ty "mut" = false).
    { apply String.eqb_neq; auto. }
    cbn [hd_error app bind]. rewrite Hty.
    cbn [Nat.add nth_error bind].
    change (ty :: (exts ++ [name])%list) with ([ty] ++ exts ++ [name])%list.
    pose proof (range_middle [ty] exts name) as Hrange.
    change (List.length [ty]) with 1 in Hrange.
    rewrite Hrange. cbn [bind].
    rewrite app_assoc, back_snoc. cbn [bind].
    rewrite fold_left_append. reflexivity.
Qed.

Lemma accumulate_arguments_spec (items : list Argument) :
  splits_joined split_str ->
  Forall well_formed_argument items ->
  forall c_args,
    accumulate_arguments
      (map (fun a => String.concat " " (argument_pieces a)) items) c_args
    = Some (c_args ++ String.concat ", " (map argument_code items)).
Proof.
  intros Hsplit; induction items as [|a l IH]; intros Hall c_args.
  - simpl; now rewrite append_empty_r.
  - inversion Hall as [|? ? Ha Hl]; subst.
    cbn [map accumulate_arguments].
    rewrite (evaluate_argument_spec a Hsplit Ha). cbn [bind].
    destruct l as [|b l]; [reflexivity|].
    cbn [map] in *. rewrite (IH Hl).
    change (String.concat ", " (argument_code a :: argument_code b
                                  :: map argument_code l))
      with (argument_code a ++ ", "
            ++ String.concat ", " (argument_code b :: map argument_code l)).
    now rewrite !append_assoc.
Qed.

(** C5, the arguments of a function.  When the raw argument string is a
    comma-separated list of items [[mut] TYPE [EXT...] NAME] whose pieces
    are separated by single spaces, the function renders, for each item,
    [const ] unless the leading piece is [mut], the C type, the extension
    pieces with nothing between them, one space and the name; the items are
    joined with [", "] between the parentheses of
    [RET NAME(ARGS) {], line feed, body, [}], line feed. *)
Theorem function_arguments (m_name m_return_type : string)
    (items : list Argument) (m_body : list Statement) (body : string) :
  splits_joined split_str ->
  Forall well_formed_argument items ->
  BlockStatement_evaluate m_body = Some body ->
  evaluate (FunctionStatement m_name (raw_arguments items) m_return_type
              m_body)
  = Some (builtin_type_to_c_type_of_name m_return_type ++ " " ++ m_name
          ++ "(" ++ String.concat ", " (map argument_code items)
          ++ ") {" ++ LF ++ body ++ "}" ++ LF).
Proof.
  intros Hsplit Hall Hbody.
  unfold BlockStatement_evaluate in Hbody.
  change (evaluate (BlockStatement m_body))
    with (accumulate_block evaluate m_body) in Hbody.
  change (evaluate (FunctionStatement m_name (raw_arguments items)
                      m_return_type m_body))
    with (c_args <-
            accumulate_arguments (split_str (raw_arguments items) ",") "" ;;
          body <- accumulate_block evaluate m_body ;;
          Some (((builtin_type_to_c_type_of_name m_return_type ++ " "
                  ++ m_name ++ "(" ++ c_args ++ ") {" ++ LF) ++ body)
                ++ "}" ++ LF)).
  unfold raw_arguments. rewrite (Hsplit ","%char).
  2:{ apply Forall_map. eapply Forall_impl; [|exact Hall].
      intros a Ha; now apply argument_pieces_commas. }
  rewrite (accumulate_arguments_spec items Hsplit Hall), Hbody.
  cbn [bind]. f_equal.
  change ("" ++ String.concat ", " (map argument_code items))
    with (String.concat ", " (map argument_code items)).
  now rewrite !append_assoc.
Qed.

End StatementFacts.

(** * Further properties of the tokenizer *)

Lemma substring_one (n : nat) (s : string) (c : ascii) :
  String.get n s = Some c -> substring n 1 s = String c "".
Proof.
  intros H. now rewrite (substring_next _ _ _ _ H), substring_none.
Qed.

Lemma substring_two (n : nat) (s : string) (c x : ascii) :
  String.get n s = Some c ->
  String.get (n + 1) s = Some x ->
  substring n 2 s = String c (String x "").
Proof.
  intros Hc Hx. rewrite Nat.add_1_r in Hx.
  now rewrite (substring_next _ _ _ _ Hc), (substring_one _ _ _ Hx).
Qed.

Lemma length_substring_le (n m : nat) (s : string) :
  String.length (substring n m s) <= String.length s - n.
Proof.
  revert n m; induction s as [|c s IH]; intros [|n] [|m]; simpl; try lia.
  - specialize (IH 0 m); lia.
  - apply IH.
  - apply IH.
Qed.

Lemma get_lt (n : nat) (s : string) (c : ascii) :
  String.get n s = Some c -> n < String.length s.
Proof.
  intros H. destruct (Nat.lt_ge_cases n (String.length s)) as [|Hge]; auto.
  apply get_length_iff in Hge; congruence.
Qed.

Lemma is_char_true (o : option ascii) (c : ascii) :
  is_char o c = true -> o = Some c.
Proof.
  destruct o as [x|]; simpl; [|discriminate].
  now intros H; apply Ascii.eqb_eq in H; subst.
Qed.

(** The whitespace loop walks over a run of whitespace and nothing else. *)
Lemma skip_whitespaces_loop_run (fuel : nat) :
  forall lexer,
    String.length (m_iterable lexer) - m_cursor lexer <= fuel ->
    exists run lexer',
      skip_whitespaces_loop fuel lexer = Some lexer'
      /\ extends lexer lexer'
      /\ m_cursor lexer' = m_cursor lexer + String.length run
      /\ run = substring (m_cursor lexer) (String.length run) (m_iterable lexer)
      /\ all_chars is_whitespace run = true.
Proof.
  induction fuel as [|fuel IH]; intros lexer Hfuel; simpl.
  - assert (E : eof lexer = true) by (apply eof_true_iff; lia).
    rewrite E. exists "", lexer; splits; auto using extends_refl.
    simpl; now rewrite substring_none.
  - destruct (eof lexer) eqn:E.
    + exists "", lexer; splits; auto using extends_refl.
      simpl; now rewrite substring_none.
    + destruct (not_eof_peek _ E) as [ch Hch].
      unfold value; rewrite Hch; simpl.
      destruct (is_whitespace ch) eqn:Hws.
      * destruct (IH (advance 1 lexer))
          as (run & lexer' & Hrun & Hext & Hcur & Hsub & Hall).
        { simpl; lia. }
        exists (String ch run), lexer'; splits.
        -- exact Hrun.
        -- apply extends_trans with (advance 1 lexer);
             auto using extends_advance.
        -- simpl in *; lia.
        -- simpl String.length. rewrite (substring_next _ _ _ _ Hch).
           f_equal. simpl in Hsub. now rewrite Nat.add_1_r in Hsub.
        -- simpl; now rewrite Hws.
      * exists "", lexer; splits; auto using extends_refl.
        simpl; now rewrite substring_none.
Qed.

Section LexerFurther.

Context {keywords : KeywordTable}.

(** X3.  [skip_whitespaces] never aborts and keeps the source and the sink;
    the text it moves the cursor over is made of space, tab, carriage return
    and line feed only, and it stops at the end of the source or in front of
    a character that is none of these. *)
Theorem skip_whitespaces_run (lexer : Lexer) :
  exists lexer',
    skip_whitespaces lexer = Some lexer'
    /\ extends lexer lexer'
    /\ all_chars is_whitespace
         (text_between (cursor lexer) (cursor lexer') (m_iterable lexer))
       = true
    /\ match peek lexer' with
       | Some ch => is_whitespace ch = false
       | None => eof lexer' = true
       end.
Proof.
  destruct (skip_whitespaces_loop_run
              (String.length (m_iterable lexer) - m_cursor lexer) lexer)
    as (run & lexer' & Hrun & Hext & Hcur & Hsub & Hall); [lia|].
  destruct (skip_whitespaces_spec lexer) as (lexer0 & Hskip & _ & Hstop & _).
  unfold skip_whitespaces in Hskip. rewrite Hrun in Hskip.
  injection Hskip as <-.
  exists lexer'; splits; auto.
  - unfold text_between, cursor. rewrite Hcur.
    replace (m_cursor lexer + String.length run - m_cursor lexer)
      with (String.length run) by lia.
    now rewrite <- Hsub.
  - destruct (peek lexer') eqn:Hp; [exact Hstop | now apply eof_peek].
Qed.

(** X4.  After the whitespace, ['='], ['+'] and ['<'] followed by ['=']
    give the two-character token ([EQUAL_EQUAL], [PLUS_EQUAL],
    [LESS_EQUAL]) and move the cursor by two; followed by anything else, or
    by nothing, they give the one-character token and move the cursor by
    one.  ['*'] gives [STAR] whatever follows. *)
Theorem compound_operators (lexer lexer0 : Lexer) :
  Supervisor.has_errors (m_supervisor lexer) = false ->
  skip_whitespaces lexer = Some lexer0 ->
  let start := cursor lexer0 in
  let two type lexeme :=
    Some (Token.create type lexeme (Position.create start (start + 2)),
          advance 2 lexer0) in
  let one type lexeme :=
    Some (Token.create type lexeme (Position.create start (start + 1)),
          advance 1 lexer0) in
  (peek lexer0 = Some "="%char ->
   (peek_ahead 1 lexer0 = Some "="%char ->
    next_token lexer = two Token.EQUAL_EQUAL "==")
   /\ (peek_ahead 1 lexer0 <> Some "="%char ->
       next_token lexer = one Token.EQUAL "="))
  /\ (peek lexer0 = Some "+"%char ->
      (peek_ahead 1 lexer0 = Some "="%char ->
       next_token lexer = two Token.PLUS_EQUAL "+=")
      /\ (peek_ahead 1 lexer0 <> Some "="%char ->
          next_token lexer = one Token.PLUS "+"))
  /\ (peek lexer0 = Some "<"%char ->
      (peek_ahead 1 lexer0 = Some "="%char ->
       next_token lexer = two Token.LESS_EQUAL "<=")
      /\ (peek_ahead 1 lexer0 <> Some "="%char ->
          next_token lexer = one Token.LESS "<"))
  /\ (peek lexer0 = Some "*"%char ->
      next_token lexer = one Token.STAR "*").
Proof.
  intros Herr Hskip start two one.
  assert (Hnext : forall ch, peek lexer0 = Some ch ->
                             next_token lexer = dispatch ch lexer0).
  { intros ch Hpeek. unfold next_token; rewrite Herr, Hskip; simpl.
    now rewrite Hpeek. }
  assert (Hno : peek_ahead 1 lexer0 <> Some "="%char ->
                is_char (peek_ahead 1 lexer0) "=" = false).
  { intros H. destruct (is_char (peek_ahead 1 lexer0) "=") eqn:E; auto.
    now apply is_char_true in E. }
  splits; intros Hpeek; rewrite (Hnext _ Hpeek); clear Hnext;
    try split; try intros Hahead;
    try (apply Hno in Hahead);
    cbv beta zeta delta
      [dispatch lex_equal_sign lex_plus lex_less_than lex_star];
    simpl Ascii.eqb; cbv iota; try rewrite Hahead; reflexivity.
Qed.

(** ** Blank sources *)

(** X5.  On a source made of whitespace only, the empty source included,
    [lex] returns no token, whatever the sink holds: the one call of
    [next_token] meets the end of the source and its sentinel is dropped. *)
Theorem lex_blank_source (source : string) (supervisor : Supervisor.t)
    (fuel : nat) :
  all_chars is_whitespace source = true ->
  lex (S fuel) source supervisor = Returned []
  /\ lex_returns source supervisor [].
Proof.
  intros Hall.
  assert (H : lex (S fuel) source supervisor = Returned []).
  { unfold lex.
    destruct (lex_continues (Lexer_new source supervisor)) eqn:Hc.
    2:{ now apply lex_loop_exit. }
    pose proof Hc as Hc'. unfold lex_continues in Hc'.
    apply andb_true_iff in Hc' as [_ Herr]. apply negb_true_iff in Herr.
    destruct (next_token_spec _ Herr) as (lexer0 & _ & (Hsrc & _) & Hnext).
    destruct (peek lexer0) as [ch|] eqn:Hpeek.
    - destruct Hnext as [Hws _]. unfold peek in Hpeek. rewrite Hsrc in Hpeek.
      simpl in Hpeek. rewrite (all_chars_get _ _ _ _ Hall Hpeek) in Hws.
      discriminate.
    - rewrite (lex_loop_iter _ _ _ _ _ Hc Hnext).
      apply lex_loop_exit. unfold lex_continues.
      apply eof_peek in Hpeek. now rewrite Hpeek. }
  split; [exact H|]. now apply lex_loop_sound in H.
Qed.

(** ** What the returned tokens are *)

(** The token of a case of the switch carries the text the case consumed,
    and the cursor stays within the source. *)
Lemma dispatch_text (ch : ascii) (lexer lexer' : Lexer) (token : Token.t) :
  peek lexer = Some ch ->
  dispatch ch lexer = Some (token, lexer') ->
  m_cursor lexer' = m_cursor lexer + String.length (Token.m_lexeme token)
  /\ Token.m_lexeme token
     = substring (m_cursor lexer) (String.length (Token.m_lexeme token))
         (m_iterable lexer)
  /\ m_cursor lexer' <= String.length (m_iterable lexer).
Proof.
  intros Hpeek. pose proof (get_lt _ _ _ Hpeek) as Hlt.
  unfold dispatch. switch_on ch;
    try (cbv beta zeta delta
           [lex_minus lex_equal_sign lex_star lex_plus lex_less_than
            single_punctuation];
         repeat match goal with
           | |- context [is_char ?o ?x] =>
               let E := fresh "Hx" in
               destruct (is_char o x) eqn:E;
               [apply is_char_true in E|]
           end;
         intros [= <- <-]; simpl;
         try (match goal with
              | Hx : peek_ahead 1 _ = Some _ |- _ =>
                  pose proof (get_lt _ _ _ Hx);
                  rewrite (substring_two _ _ _ _ Hpeek Hx)
              end; splits; [lia | reflexivity | lia]);
         rewrite (substring_one _ _ _ Hpeek);
         splits; [lia | reflexivity | lia]).
  intros Hlex.
  destruct (lex_keyword_or_identifier_spec lexer)
    as (run & lexer0 & Hlex0 & _ & Hcur & Hsub & _).
  rewrite Hlex in Hlex0. injection Hlex0 as -> ->. simpl.
  splits; auto.
  rewrite Hcur, Hsub.
  pose proof (length_substring_le (m_cursor lexer) (String.length run)
                (m_iterable lexer)).
  lia.
Qed.

(** What [next_token] returns from a lexer whose cursor is within the
    source: the cursor stays within the source, and a token that is not the
    sentinel carries the text it consumed and lies within the source. *)
Lemma next_token_emits (lexer lexer' : Lexer) (token : Token.t) :
  next_token lexer = Some (token, lexer') ->
  m_cursor lexer <= String.length (m_iterable lexer) ->
  m_cursor lexer' <= String.length (m_iterable lexer)
  /\ (Token.matches token Token.END_OF_FILE = false ->
      carries_source_text (m_iterable lexer) token
      /\ lies_within (m_iterable lexer) token
      /\ exists lexer0,
           extends lexer lexer0
           /\ m_cursor lexer' = m_cursor lexer0
                                + String.length (Token.m_lexeme token)).
Proof.
  intros Hn Hin.
  destruct (Supervisor.has_errors (m_supervisor lexer)) eqn:Herr.
  { rewrite (next_token_errors _ Herr) in Hn. injection Hn as <- <-.
    split; [exact Hin|]. intros H. apply matches_false_iff in H. now elim H. }
  destruct (next_token_spec lexer Herr) as (lexer0 & Hskip & Hext & Hnext).
  destruct (skip_whitespaces_loop_run
              (String.length (m_iterable lexer) - m_cursor lexer) lexer)
    as (run & lexer1 & Hrun & _ & Hcur & Hsub & _); [lia|].
  unfold skip_whitespaces in Hskip. rewrite Hrun in Hskip.
  injection Hskip as ->.
  assert (Hin0 : m_cursor lexer0 <= String.length (m_iterable lexer)).
  { rewrite Hcur, Hsub.
    pose proof (length_substring_le (m_cursor lexer) (String.length run)
                  (m_iterable lexer)).
    lia. }
  destruct Hext as (Hsrc & Hsup & Hle).
  destruct (peek lexer0) as [ch|] eqn:Hpeek.
  - destruct Hnext as [_ Hnext]. rewrite Hn in Hnext. symmetry in Hnext.
    destruct (dispatch_text _ _ _ _ Hpeek Hnext) as (Hc & Htext & Hbound).
    destruct (dispatch_spec ch lexer0 Hpeek)
      as (token0 & lexer0' & Hd & Hext' & _ & Hend & Hstart & _).
    rewrite Hnext in Hd. injection Hd as <- <-.
    rewrite Hsrc in *. split; [exact Hbound|]. intros _.
    unfold cursor in *. splits.
    + unfold carries_source_text, text_between. rewrite Hend, Hc. split; [lia|].
      replace (m_cursor lexer0 + String.length (Token.m_lexeme token)
               - String.length (Token.m_lexeme token))
        with (m_cursor lexer0) by lia.
      replace (m_cursor lexer0 + String.length (Token.m_lexeme token)
               - m_cursor lexer0)
        with (String.length (Token.m_lexeme token)) by lia.
      exact Htext.
    + unfold lies_within. rewrite Hstart, Hend.
      destruct (is_single_punctuation ch); lia.
    + exists lexer0; split; [|exact Hc]. repeat split; auto.
  - rewrite Hn in Hnext. injection Hnext as -> ->.
    split; [exact Hin0|]. intros H. apply matches_false_iff in H. now elim H.
Qed.

(** Every state of the loop of [lex] has its cursor within the source and
    holds tokens that are no sentinels, carry the text of the source and
    lie within it. *)
Lemma lex_reaches_tokens (source : string) (supervisor : Supervisor.t)
    (lexer : Lexer) (tokens : list Token.t) :
  lex_reaches source supervisor lexer tokens ->
  m_cursor lexer <= String.length source
  /\ Forall (fun token => Token.m_type token <> Token.END_OF_FILE) tokens
  /\ Forall (carries_source_text source) tokens
  /\ Forall (lies_within source) tokens.
Proof.
  induction 1
    as [|lexer tokens token lexer' Hr (Hin & Hno & Htext & Hwithin) Hc Hn].
  - splits; [simpl; lia | constructor..].
  - apply lex_reaches_invariant in Hr as (Hsrc & _).
    rewrite <- Hsrc in Hin.
    destruct (next_token_emits _ _ _ Hn Hin) as [Hin' Htok].
    rewrite Hsrc in *.
    unfold push_token.
    destruct (Token.matches token Token.END_OF_FILE) eqn:Hm;
      [splits; auto|].
    destruct (Htok eq_refl) as (H1 & H2 & _).
    apply matches_false_iff in Hm.
    splits; auto; apply Forall_app; split; auto.
Qed.

(** X6.  No token of the sequence [lex] returns is the end-of-file
    sentinel, whatever the keyword table resolves a lexeme to. *)
Theorem lex_no_sentinel (source : string) (supervisor : Supervisor.t)
    (tokens : list Token.t) :
  lex_returns source supervisor tokens ->
  Forall (fun token => Token.m_type token <> Token.END_OF_FILE) tokens.
Proof.
  intros H.
  destruct (lex_run_reaches source supervisor _ _ _ H
              (lex_reaches_entry source supervisor)) as [lexer Hr].
  now apply lex_reaches_tokens in Hr.
Qed.

(** X7.  Every token [lex] returns carries the text of the source: its
    lexeme is the substring of the source that ends at the end offset of
    the token. *)
Theorem lex_lexemes_are_source_text (source : string)
    (supervisor : Supervisor.t) (tokens : list Token.t) :
  lex_returns source supervisor tokens ->
  Forall (carries_source_text source) tokens.
Proof.
  intros H.
  destruct (lex_run_reaches source supervisor _ _ _ H
              (lex_reaches_entry source supervisor)) as [lexer Hr].
  now apply lex_reaches_tokens in Hr.
Qed.

(** X8.  The cursor never passes the end of the source, and the position of
    every token held by the loop of [lex] is a range of the source: the
    start offset is at most the end offset, which is at most the length of
    the source. *)
Theorem lex_positions_within_source (source : string)
    (supervisor : Supervisor.t) (lexer : Lexer) (tokens : list Token.t) :
  lex_reaches source supervisor lexer tokens ->
  cursor lexer <= String.length source
  /\ Forall (lies_within source) tokens.
Proof.
  intros Hr. now apply lex_reaches_tokens in Hr.
Qed.

(** ** How many tokens *)

(** A lexer that [next_token] leaves as it is keeps the loop going for
    ever. *)
Lemma stuck_never_returns (lexer : Lexer) (token : Token.t) :
  lex_continues lexer = true ->
  next_token lexer = Some (token, lexer) ->
  forall tokens result, ~ lex_run lexer tokens result.
Proof.
  intros Hc Hn tokens result Hrun.
  remember lexer as stuck eqn:E in Hrun.
  induction Hrun as [l ts Hc' | l ts t l' r Hc' Hn' _ IH]; subst.
  - congruence.
  - rewrite Hn in Hn'. injection Hn' as _ <-. now apply IH.
Qed.

Lemma lex_run_count (lexer : Lexer) (tokens result : list Token.t) :
  lex_run lexer tokens result ->
  m_cursor lexer <= String.length (m_iterable lexer) ->
  List.length result + m_cursor lexer
  <= List.length tokens + String.length (m_iterable lexer).
Proof.
  induction 1 as [lexer tokens Hc | lexer tokens token lexer' result Hc Hn Hrun IH];
    intros Hin; [lia|].
  destruct (next_token_emits _ _ _ Hn Hin) as [Hin' Htok].
  destruct (next_token_total lexer) as (t0 & l0 & Hn0 & (Hsrc & Hsup & Hle) & _).
  rewrite Hn in Hn0. injection Hn0 as <- <-.
  rewrite Hsrc in IH. specialize (IH Hin').
  unfold push_token in *.
  destruct (Token.matches token Token.END_OF_FILE) eqn:Hm; [lia|].
  rewrite length_app in IH; simpl in IH.
  destruct (Nat.eq_dec (m_cursor lexer') (m_cursor lexer)) as [E|E]; [|lia].
  exfalso.
  assert (Hsame : lexer' = lexer).
  { destruct lexer, lexer'; simpl in *; congruence. }
  rewrite Hsame in Hn, Hrun.
  exact (stuck_never_returns lexer token Hc Hn _ _ Hrun).
Qed.

(** X9.  [lex] returns at most one token per character of the source: a
    call of [next_token] that yields a token without consuming a character
    leaves the lexer as it was, and the loop then never returns. *)
Theorem lex_token_count (source : string) (supervisor : Supervisor.t)
    (tokens : list Token.t) :
  lex_returns source supervisor tokens ->
  List.length tokens <= String.length source.
Proof.
  intros H. apply lex_run_count in H; simpl in *; lia.
Qed.

End LexerFurther.

(** * Further properties of the statement tree *)

Section StatementFurther.

Context {typechecker : Typechecker} {dts : Dts}.

(** ** Blocks as sequences *)

(** X10.  A block renders to the render of any front part of its children
    followed by the render of the rest; it aborts when one of the two
    does. *)
Theorem block_append (front rest : list Statement) :
  BlockStatement_evaluate (front ++ rest)%list
  = (front_code <- BlockStatement_evaluate front ;;
     rest_code <- BlockStatement_evaluate rest ;;
     Some (front_code ++ rest_code)).
Proof.
  unfold BlockStatement_evaluate.
  change (evaluate (BlockStatement (front ++ rest)%list))
    with (accumulate_block evaluate (front ++ rest)%list).
  change (evaluate (BlockStatement front))
    with (accumulate_block evaluate front).
  change (evaluate (BlockStatement rest))
    with (accumulate_block evaluate rest).
  unfold accumulate_block. rewrite fold_left_app.
  rewrite (accumulate_block_from front "").
  rewrite (accumulate_block_from rest "").
  destruct (children_code front) as [codes|]; cbn [bind].
  - rewrite accumulate_block_from.
    destruct (children_code rest) as [codes'|]; reflexivity.
  - apply accumulate_block_aborted.
Qed.

Lemma is_EmptyStatement_true (statement : Statement) :
  is_EmptyStatement statement = true -> statement = EmptyStatement.
Proof. destruct statement; simpl; congruence. Qed.

(** X11.  The [EmptyStatement] children of a block leave no trace: the
    block renders as the block without them. *)
Theorem block_skips_empty (m_block : list Statement) :
  BlockStatement_evaluate
    (filter (fun statement => negb (is_EmptyStatement statement)) m_block)
  = BlockStatement_evaluate m_block.
Proof.
  unfold BlockStatement_evaluate.
  change (evaluate (BlockStatement m_block))
    with (accumulate_block evaluate m_block).
  change (evaluate (BlockStatement
                      (filter (fun statement =>
                                 negb (is_EmptyStatement statement))
                         m_block)))
    with (accumulate_block evaluate
            (filter (fun statement => negb (is_EmptyStatement statement))
               m_block)).
  unfold accumulate_block. generalize (Some "").
  induction m_block as [|st l IH]; intros acc; [reflexivity|].
  cbn [filter]. destruct (is_EmptyStatement st) eqn:E; cbn [negb].
  - apply is_EmptyStatement_true in E; subst st. rewrite IH.
    cbn [fold_left]. f_equal.
    destruct acc as [acc|]; [|reflexivity].
    cbn [bind evaluate is_EmptyStatement]. now rewrite append_empty_r.
  - cbn [fold_left]. apply IH.
Qed.

(** ** Structs *)

Lemma accumulate_members_spec (m_member_variables : list string) :
  forall c_struct_code,
    accumulate_members m_member_variables c_struct_code
    = c_struct_code ++ concat_all (map member_line m_member_variables).
Proof.
  unfold accumulate_members.
  induction m_member_variables as [|m l IH]; intros code.
  - simpl; now rewrite append_empty_r.
  - cbn [fold_left map]. fold (member_line m). rewrite IH.
    change (concat_all (member_line m :: map member_line l))
      with (member_line m ++ concat_all (map member_line l)).
    now rewrite append_assoc.
Qed.

(** X12.  A struct always renders: the line [typedef struct NAME {], one
    line per member in the order of the members, each member after four
    spaces and before a semicolon, and the line [} NAME;]. *)
Theorem struct_render (m_name : string) (m_member_variables : list string) :
  evaluate (StructStatement m_name m_member_variables)
  = Some ("typedef struct " ++ m_name ++ " {" ++ LF
          ++ concat_all (map member_line m_member_variables)
          ++ "} " ++ m_name ++ ";" ++ LF).
Proof.
  change (evaluate (StructStatement m_name m_member_variables))
    with (Some (accumulate_members m_member_variables
                  ("typedef struct " ++ m_name ++ " {" ++ LF)
                ++ "} " ++ m_name ++ ";" ++ LF)).
  rewrite accumulate_members_spec. now rewrite !append_assoc.
Qed.

(** ** Branches *)

(** X14.  An [if] renders its [else] branch exactly when the else block
    holds a child, also when that child renders to nothing; without a child
    the closing brace follows the then block at once. *)
Theorem if_else_branch (m_condition : string)
    (m_then_block m_else_block : list Statement)
    (then_code else_code : string) :
  BlockStatement_evaluate m_then_block = Some then_code ->
  BlockStatement_evaluate m_else_block = Some else_code ->
  evaluate (IfStatement m_condition m_then_block m_else_block)
  = Some ("if (" ++ m_condition ++ ") {" ++ LF ++ then_code
          ++ match m_else_block with
             | [] => ""
             | _ :: _ => "} else {" ++ LF ++ else_code
             end
          ++ "}" ++ LF).
Proof.
  unfold BlockStatement_evaluate. intros Ht He.
  change (evaluate (BlockStatement m_then_block))
    with (accumulate_block evaluate m_then_block) in Ht.
  change (evaluate (BlockStatement m_else_block))
    with (accumulate_block evaluate m_else_block) in He.
  change (evaluate (IfStatement m_condition m_then_block m_else_block))
    with (then_code <- accumulate_block evaluate m_then_block ;;
          c_if_code <-
            match m_else_block with
            | [] => Some (("if (" ++ m_condition ++ ") {" ++ LF) ++ then_code)
            | _ :: _ =>
                else_code <- accumulate_block evaluate m_else_block ;;
                Some (((("if (" ++ m_condition ++ ") {" ++ LF) ++ then_code)
                       ++ "} else {" ++ LF) ++ else_code)
            end ;;
          Some (c_if_code ++ "}" ++ LF)).
  rewrite Ht. cbn [bind].
  destruct m_else_block as [|st l]; cbn [bind].
  - now rewrite !append_assoc.
  - rewrite He. cbn [bind]. now rewrite !append_assoc.
Qed.

(** ** Which trees render *)

(** Induction on a statement, with the hypothesis on every child. *)
Lemma Statement_induction (P : Statement -> Prop) :
  P EmptyStatement ->
  (forall b, Forall P b -> P (BlockStatement b)) ->
  (forall n i s f, Forall P s -> Forall P f -> P (ModuleStatement n i s f)) ->
  (forall n a r b, Forall P b -> P (FunctionStatement n a r b)) ->
  (forall c t e, Forall P t -> Forall P e -> P (IfStatement c t e)) ->
  (forall e, P (ReturnStatement e)) ->
  (forall m t x n e, P (VariableStatement m t x n e)) ->
  (forall n e, P (PlusEqualStatement n e)) ->
  (forall c b, Forall P b -> P (WhileStatement c b)) ->
  (forall i c n b, P i -> Forall P b -> P (ForStatement i c n b)) ->
  (forall e, P (ExpressionStatement e)) ->
  (forall m t x n e, P (ArrayStatement m t x n e)) ->
  (forall v i e, P (IndexOperatorStatement v i e)) ->
  (forall n a, P (FunctionCallStatement n a)) ->
  (forall n m, P (StructStatement n m)) ->
  forall s, P s.
Proof.
  intros HEmpty HBlock HModule HFunction HIf HReturn HVariable HPlusEqual
    HWhile HFor HExpression HArray HIndex HCall HStruct.
  fix IH 1. intros s.
  destruct s as
    [ | b | n i ss fs | n a r b | c t e | e | m t x n e | n e | c b
    | i c n b | e | m t x n e | v i e | n a | n m ];
    [ apply HEmpty
    | apply HBlock | apply HModule | apply HFunction | apply HIf
    | apply HReturn | apply HVariable | apply HPlusEqual
    | apply HWhile | apply HFor | apply HExpression | apply HArray
    | apply HIndex | apply HCall | apply HStruct ];
    try match goal with
      | |- Forall P ?block =>
          exact ((fix all (l : list Statement) : Forall P l :=
                    match l with
                    | [] => Forall_nil P
                    | x :: r => Forall_cons x (IH x) (all r)
                    end) block)
      end.
  apply IH.
Qed.

Lemma back_nonempty {A : Type} (x : A) (l : list A) :
  exists y, back (x :: l) = Some y.
Proof.
  destruct (exists_last (l := x :: l)) as (l' & y & E); [discriminate|].
  rewrite E. exists y. apply back_snoc.
Qed.

(** Settles a computation [X] that returns exactly when [b] holds: splits
    on the result of [X] and records the value of [b]. *)
Ltac settle H :=
  match type of H with
  | (exists c, ?X = Some c) <-> ?b = true =>
      let E := fresh "E" in
      let Hb := fresh "Hb" in
      destruct X eqn:E;
      [ assert (Hb : b = true) by (apply H; eauto)
      | assert (Hb : b = false)
          by (destruct b; [destruct (proj2 H eq_refl); discriminate
                          | reflexivity]) ];
      rewrite Hb; clear H
  end.

(** Closes an equivalence whose two sides are decided. *)
Ltac decided :=
  split;
  [ first [ intros _; reflexivity | intros [? H]; discriminate H ]
  | first [ intros _; eexists; reflexivity | discriminate ] ].

(** An item renders exactly when its pieces hold a type and a name. *)
Lemma evaluate_argument_in_contract (argument : string) :
  (exists code, evaluate_argument argument = Some code)
  <-> argument_in_contract argument = true.
Proof.
  unfold evaluate_argument, argument_in_contract.
  destruct (split_str argument " ") as [|front rest]; cbn [hd_error bind].
  { split; [intros [c H]; discriminate | discriminate]. }
  set (is_mutable := if String.eqb front "mut" then 1 else 0).
  destruct (back_nonempty front rest) as [name Hname]. rewrite Hname.
  unfold range. cbn [List.length].
  replace (S (List.length rest) - 1) with (List.length rest) by lia.
  destruct (Nat.leb_spec (2 + is_mutable) (S (List.length rest))) as [Hle|Hgt].
  - destruct (nth_error (front :: rest) (0 + is_mutable)) as [ty|] eqn:Hty.
    2:{ apply nth_error_None in Hty. simpl in Hty. lia. }
    cbn [bind].
    destruct (Nat.ltb_spec (List.length rest) (1 + is_mutable)); [lia|].
    destruct (Nat.ltb_spec (S (List.length rest)) (List.length rest)); [lia|].
    cbn [orb bind]. split; eauto.
  - split; [|discriminate]. intros [code H]. exfalso.
    destruct (nth_error (front :: rest) (0 + is_mutable)); [|discriminate].
    cbn [bind] in H.
    destruct (Nat.ltb_spec (List.length rest) (1 + is_mutable)); [|lia].
    discriminate.
Qed.

Lemma accumulate_arguments_in_contract (arguments : list string) :
  forall c_args,
    (exists code, accumulate_arguments arguments c_args = Some code)
    <-> forallb argument_in_contract arguments = true.
Proof.
  induction arguments as [|a l IH]; intros c_args; cbn [accumulate_arguments forallb].
  - split; eauto.
  - pose proof (evaluate_argument_in_contract a) as Ha. settle Ha;
      cbn [bind andb].
    + destruct l as [|b l]; [split; eauto|]. apply IH.
    + split; [intros [c H]; discriminate | discriminate].
Qed.

Lemma accumulate_includes_in_contract (m_c_includes : list string) :
  forall c_module_code,
    (exists code, accumulate_includes m_c_includes c_module_code = Some code)
    <-> forallb (fun d => negb (String.eqb d "")) m_c_includes = true.
Proof.
  unfold accumulate_includes.
  induction m_c_includes as [|d l IH]; intros code; cbn [fold_left forallb].
  - split; eauto.
  - cbn [bind]. destruct d as [|c d].
    + change (substr "" 1 (size_t_sub (size "") 2)) with (@None string).
      cbn [bind]. rewrite accumulate_includes_aborted.
      split; [intros [x H]; discriminate | discriminate].
    + unfold substr at 1. cbn [String.length Nat.ltb Nat.leb bind].
      change (negb (String.eqb (String c d) "")) with true. cbn [andb].
      apply IH.
Qed.

Lemma children_code_in_contract (m_block : list Statement) :
  Forall (fun statement =>
            (exists code, evaluate statement = Some code)
            <-> in_contract statement = true) m_block ->
  (exists codes, children_code m_block = Some codes)
  <-> forallb in_contract m_block = true.
Proof.
  induction 1 as [|st l Hst _ IH]; cbn [children_code forallb].
  - split; eauto.
  - settle Hst; cbn [bind andb].
    + settle IH; cbn [bind]; decided.
    + decided.
Qed.

Lemma accumulate_block_in_contract (m_block : list Statement) :
  Forall (fun statement =>
            (exists code, evaluate statement = Some code)
            <-> in_contract statement = true) m_block ->
  (exists code, accumulate_block evaluate m_block = Some code)
  <-> forallb in_contract m_block = true.
Proof.
  intros Hall. apply children_code_in_contract in Hall.
  unfold accumulate_block. rewrite accumulate_block_from.
  settle Hall; cbn [bind]; decided.
Qed.

(** X13.  A statement tree renders exactly when it is in contract: no
    include directive of a module in it is empty, and every item of the
    argument strings of its functions splits into at least a type and a
    name, after the marker [mut] when it leads.  No other statement makes
    the render abort. *)
Theorem evaluate_in_contract (statement : Statement) :
  (exists code, evaluate statement = Some code)
  <-> in_contract statement = true.
Proof.
  induction statement
    as [ | b Hb | n i ss fs Hs Hf | n a r b Hb | c t e Ht He | e
       | m t x n e | n e | c b Hb | i c n b Hi Hb | e | m t x n e
       | v i e | n a | n m ] using Statement_induction;
    try (split; [reflexivity | intros _; eexists; reflexivity]);
    repeat match goal with
      | H : Forall _ _ |- _ => apply accumulate_block_in_contract in H
      end.
  - exact Hb.
  - pose proof (accumulate_includes_in_contract i "") as Hi.
    change (evaluate (ModuleStatement n i ss fs))
      with (c_module_code <- accumulate_includes i "" ;;
            structs <- accumulate_block evaluate ss ;;
            functions <- accumulate_block evaluate fs ;;
            Some ((((c_module_code ++ LF) ++ structs) ++ LF) ++ functions)).
    cbn [in_contract].
    settle Hi; settle Hs; settle Hf; cbn [bind andb];
      decided.
  - pose proof (accumulate_arguments_in_contract (split_str a ",") "") as Ha.
    change (evaluate (FunctionStatement n a r b))
      with (c_args <- accumulate_arguments (split_str a ",") "" ;;
            body <- accumulate_block evaluate b ;;
            Some (((builtin_type_to_c_type_of_name r ++ " " ++ n ++ "("
                    ++ c_args ++ ") {" ++ LF) ++ body) ++ "}" ++ LF)).
    cbn [in_contract].
    settle Ha; settle Hb; cbn [bind andb];
      decided.
  - change (evaluate (IfStatement c t e))
      with (then_code <- accumulate_block evaluate t ;;
            c_if_code <-
              match e with
              | [] => Some (("if (" ++ c ++ ") {" ++ LF) ++ then_code)
              | _ :: _ =>
                  else_code <- accumulate_block evaluate e ;;
                  Some (((("if (" ++ c ++ ") {" ++ LF) ++ then_code)
                         ++ "} else {" ++ LF) ++ else_code)
              end ;;
            Some (c_if_code ++ "}" ++ LF)).
    cbn [in_contract].
    settle Ht; cbn [bind andb];
      [|decided].
    destruct e as [|st e]; [cbn [bind forallb]; decided|].
    cbn [bind]. settle He; cbn [bind]; decided.
  - change (evaluate (WhileStatement c b))
      with (body <- accumulate_block evaluate b ;;
            Some ((("while (" ++ c ++ ") {" ++ LF) ++ body) ++ "}" ++ LF)).
    cbn [in_contract].
    settle Hb; cbn [bind]; decided.
  - change (evaluate (ForStatement i c n b))
      with (init <- evaluate i ;;
            body <- accumulate_block evaluate b ;;
            Some ((("for (" ++ init ++ " " ++ c ++ n ++ ") {" ++ LF) ++ body)
                  ++ "}" ++ LF)).
    cbn [in_contract].
    settle Hi; settle Hb; cbn [bind andb];
      decided.
Qed.

End StatementFurther.



(** * The theorems at concrete inputs *)

(** The source [" ->"]: the whitespace is skipped and the arrow lexed. *)
Lemma minus_disambiguation_witness :
  @next_token spec_keywords (Lexer_new " ->" Supervisor.fresh)
  = Some (Token.create Token.ARROW "->" (Position.create 1 3),
          mkLexer " ->" 3 Supervisor.fresh).
Proof.
  apply (proj1 (proj1 (@minus_disambiguation spec_keywords)
                  (Lexer_new " ->" Supervisor.fresh)
                  (mkLexer " ->" 1 Supervisor.fresh)
                  eq_refl eq_refl eq_refl)).
  reflexivity.
Defined.

(** The scenario S3 under the keyword table of the specification. *)
Lemma keyword_priority_witness :
  exists tokens,
    @lex spec_keywords 3 "mut foo_bar mutation" Supervisor.fresh
    = Returned tokens
    /\ map Token.m_type tokens
       = [Token.KEYWORD "mut"; Token.IDENTIFIER; Token.IDENTIFIER]
    /\ map Token.m_lexeme tokens = ["mut"; "foo_bar"; "mutation"].
Proof.
  apply (proj2 (@keyword_priority spec_keywords)); reflexivity.
Defined.

(** A sink that holds a report silences the lexer. *)
Lemma lexer_quiesces_on_errors_witness :
  @next_token spec_keywords
    (Lexer_new "fn" (Supervisor.create ["unexpected"]))
  = Some (Token.create_dumb,
          Lexer_new "fn" (Supervisor.create ["unexpected"])).
Proof.
  apply (proj1 (proj2 (proj2 (@lexer_quiesces_on_errors spec_keywords)))).
  reflexivity.
Defined.

(** The tokens of ["(a);-"], of which the parentheses and the semicolon
    start where they end. *)
Lemma positional_monotonicity_witness :
  positions_ordered
    [ Token.create Token.LEFT_PAREN "(" (Position.create 1 1);
      Token.create Token.IDENTIFIER "a" (Position.create 1 2);
      Token.create Token.RIGHT_PAREN ")" (Position.create 3 3);
      Token.create Token.SEMICOLON ";" (Position.create 4 4);
      Token.create Token.MINUS "-" (Position.create 4 5) ].
Proof.
  apply (@positional_monotonicity spec_keywords "(a);-" Supervisor.fresh).
  apply (@lex_loop_sound spec_keywords 5). reflexivity.
Defined.

(** The semicolon of ["x ;"], lexed after the blank. *)
Lemma punctuation_positions_witness :
  Position.m_end (Position.create 3 3) = 3
  /\ (is_single_punctuation ";" = true ->
      is_single_punctuation_kind Token.SEMICOLON = true
      /\ ";" = String ";" ""
      /\ 3 = 2 + 1
      /\ Position.m_start (Position.create 3 3) = 2 + 1
      /\ Position.m_end (Position.create 3 3) = 2 + 1)
  /\ (is_single_punctuation ";" = false ->
      Position.m_start (Position.create 3 3) = 2).
Proof.
  apply (@punctuation_positions spec_keywords
           (mkLexer "x ;" 1 Supervisor.fresh)
           (mkLexer "x ;" 2 Supervisor.fresh)
           (mkLexer "x ;" 3 Supervisor.fresh)
           ";"%char
           (Token.create Token.SEMICOLON ";" (Position.create 3 3)));
    reflexivity.
Defined.

(** The module of scenario S6. *)
Lemma module_render_witness :
  @evaluate spec_typechecker spec_dts
    (ModuleStatement "main" ["<stdio.h>"] []
       [FunctionStatement "main" "" "i32" [ReturnStatement "0"]])
  = Some (concat_all (map include_line ["<stdio.h>"])
          ++ LF ++ "" ++ LF
          ++ "int32_t main() {" ++ LF ++ "return 0;" ++ LF ++ "}" ++ LF ++ LF)
  /\ forall other_name,
       @evaluate spec_typechecker spec_dts
         (ModuleStatement other_name ["<stdio.h>"] []
            [FunctionStatement "main" "" "i32" [ReturnStatement "0"]])
       = @evaluate spec_typechecker spec_dts
           (ModuleStatement "main" ["<stdio.h>"] []
              [FunctionStatement "main" "" "i32" [ReturnStatement "0"]]).
Proof.
  apply (@module_render spec_typechecker spec_dts).
  - constructor; [|constructor]. split; [simpl; lia | reflexivity].
  - reflexivity.
  - reflexivity.
Defined.

(** A function of two arguments, the second one mutable and a pointer to a
    pointer. *)
Lemma function_arguments_witness :
  @evaluate spec_typechecker spec_dts
    (FunctionStatement "f"
       (raw_arguments
          [ mkArgument false "i32" [] "a";
            mkArgument true "i32" ["*"; "*"] "b" ])
       "i32" [ReturnStatement "0"])
  = Some ("int32_t f(const int32_t a, int32_t** b) {" ++ LF
          ++ "return 0;" ++ LF ++ "}" ++ LF).
Proof.
  apply (@function_arguments spec_typechecker spec_dts "f" "i32"
           [ mkArgument false "i32" [] "a";
             mkArgument true "i32" ["*"; "*"] "b" ]
           [ReturnStatement "0"] ("return 0;" ++ LF)).
  - exact split_str_from_joined.
  - repeat constructor; simpl; discriminate.
  - reflexivity.
Defined.

(** C2 as the specification words it does not hold: a mutable array renders
    with a space in front, an array that is not mutable with two spaces
    after [const], and in both the extension follows the name at once. *)
Lemma array_render_counterexample :
  @evaluate spec_typechecker spec_dts
    (ArrayStatement true spec_i32 "[3]" "a" "1, 2, 3")
  = Some " int32_t a[3] = { 1, 2, 3 };"
  /\ @evaluate spec_typechecker spec_dts
       (ArrayStatement false spec_i32 "[3]" "a" "1, 2, 3")
     = Some "const  int32_t a[3] = { 1, 2, 3 };"
  /\ @evaluate spec_typechecker spec_dts
       (ArrayStatement true spec_i32 "[3]" "a" "1, 2, 3")
     <> Some (array_code_as_specified true "int32_t" "a" "[3]" "1, 2, 3")
  /\ @evaluate spec_typechecker spec_dts
       (ArrayStatement false spec_i32 "[3]" "a" "1, 2, 3")
     <> Some (array_code_as_specified false "int32_t" "a" "[3]" "1, 2, 3").
Proof.
  splits; try reflexivity; vm_compute; discriminate.
Qed.

(** ** The further properties at concrete inputs *)

Lemma lex_terminates_on_recognised_witness :
  exists tokens,
    @lex spec_keywords 7 "a = b;" Supervisor.fresh = Returned tokens
    /\ @lex_returns spec_keywords "a = b;" Supervisor.fresh tokens.
Proof.
  apply (@lex_terminates_on_recognised spec_keywords "a = b;"
           Supervisor.fresh).
  reflexivity.
Defined.

Lemma lex_never_returns_outside_alphabet_witness :
  ~ (exists tokens,
       @lex_returns spec_keywords "a ? b" Supervisor.fresh tokens).
Proof.
  apply (@lex_never_returns_outside_alphabet spec_keywords "a ? b").
  reflexivity.
Defined.

Lemma compound_operators_witness :
  @next_token spec_keywords (Lexer_new " <=" Supervisor.fresh)
  = Some (Token.create Token.LESS_EQUAL "<=" (Position.create 1 3),
          mkLexer " <=" 3 Supervisor.fresh).
Proof.
  apply (proj1
           (proj1 (proj2 (proj2
              (@compound_operators spec_keywords
                 (Lexer_new " <=" Supervisor.fresh)
                 (mkLexer " <=" 1 Supervisor.fresh)
                 eq_refl eq_refl)))
              eq_refl)).
  reflexivity.
Defined.

Lemma lex_blank_source_witness :
  @lex spec_keywords 1 "   " Supervisor.fresh = Returned []
  /\ @lex_returns spec_keywords "   " Supervisor.fresh [].
Proof.
  apply (@lex_blank_source spec_keywords "   " Supervisor.fresh 0).
  reflexivity.
Defined.

Lemma lex_no_sentinel_witness :
  Forall (fun token => Token.m_type token <> Token.END_OF_FILE)
    [ Token.create (Token.KEYWORD "mut") "mut" (Position.create 0 3);
      Token.create Token.IDENTIFIER "x" (Position.create 4 5) ].
Proof.
  apply (@lex_no_sentinel spec_keywords "mut x " Supervisor.fresh).
  apply (@lex_loop_sound spec_keywords 3). reflexivity.
Defined.

Lemma lex_lexemes_are_source_text_witness :
  Forall (carries_source_text "f(x) -> y")
    [ Token.create Token.IDENTIFIER "f" (Position.create 0 1);
      Token.create Token.LEFT_PAREN "(" (Position.create 2 2);
      Token.create Token.IDENTIFIER "x" (Position.create 2 3);
      Token.create Token.RIGHT_PAREN ")" (Position.create 4 4);
      Token.create Token.ARROW "->" (Position.create 5 7);
      Token.create Token.IDENTIFIER "y" (Position.create 8 9) ].
Proof.
  apply (@lex_lexemes_are_source_text spec_keywords "f(x) -> y"
           Supervisor.fresh).
  apply (@lex_loop_sound spec_keywords 6). reflexivity.
Defined.

Lemma lex_positions_within_source_witness :
  cursor (mkLexer "(a" 1 Supervisor.fresh) <= String.length "(a"
  /\ Forall (lies_within "(a")
       [Token.create Token.LEFT_PAREN "(" (Position.create 1 1)].
Proof.
  apply (@lex_positions_within_source spec_keywords "(a" Supervisor.fresh).
  exact (@lex_reaches_iter spec_keywords "(a" Supervisor.fresh
           (Lexer_new "(a" Supervisor.fresh) []
           (Token.create Token.LEFT_PAREN "(" (Position.create 1 1))
           (mkLexer "(a" 1 Supervisor.fresh)
           (lex_reaches_entry "(a" Supervisor.fresh) eq_refl eq_refl).
Defined.

Lemma lex_token_count_witness :
  List.length
    [ Token.create Token.IDENTIFIER "a" (Position.create 0 1);
      Token.create Token.PLUS_EQUAL "+=" (Position.create 1 3);
      Token.create Token.IDENTIFIER "1" (Position.create 3 4);
      Token.create Token.SEMICOLON ";" (Position.create 5 5) ]
  <= String.length "a+=1;".
Proof.
  apply (@lex_token_count spec_keywords "a+=1;" Supervisor.fresh).
  apply (@lex_loop_sound spec_keywords 4). reflexivity.
Defined.

(** The scenario S5, and the same with an else block that renders to
    nothing. *)
Lemma if_else_branch_witness :
  @evaluate spec_typechecker spec_dts
    (IfStatement "x == 0" [ReturnStatement "1"] [EmptyStatement])
  = Some ("if (x == 0) {" ++ LF ++ ("return 1;" ++ LF)
          ++ ("} else {" ++ LF ++ "") ++ "}" ++ LF).
Proof.
  apply (@if_else_branch spec_typechecker spec_dts "x == 0"
           [ReturnStatement "1"] [EmptyStatement] ("return 1;" ++ LF) "");
    reflexivity.
Defined.
